(** * cktext: a shallow embedding of [ck::var], [ck::Text::Property],
    [ck::Text::Group] and [ck::Text] (src/var.hpp, src/text.h, src/text.cpp).

    Conventions of the embedding.
    - A [const char*] argument is [option string]: [None] is [nullptr],
      [Some s] the characters before the terminating NUL (so [s] holds no
      NUL and [length(p)] is [String.length s]).
    - A [std::string] is a [string]; it may hold NUL bytes.
    - [std::map<std::string,_>] is a [gmap string _]; where the source
      depends on the key order of [std::map] (iteration, [begin()]) the
      entries are sorted explicitly with [std::string]'s order.
    - Bytes on the stream are [ascii]; multi-byte integers are
      little-endian, as the code writes them with [write(&x, n)]. *)

From Stdlib Require Import ZArith List Ascii String Sorting.Permutation Sorting.Sorted.
From stdpp Require Import base gmap strings list fin_maps.
Import ListNotations.
Open Scope Z_scope.

(* ------------------------------------------------------------------ *)
(** ** Strings as C sees them *)

(** Characters before the first NUL: what [s.c_str()] denotes as a
    [const char*]. *)
Fixpoint cstr (s : string) : string :=
  match s with
  | EmptyString => EmptyString
  | String c s' => if Ascii.eqb c "000"%char then EmptyString else String c (cstr s')
  end.

Definition nul_free (s : string) : bool :=
  forallb (fun c => negb (Ascii.eqb c "000"%char)) (list_ascii_of_string s).

(** [std::char_traits<char>::lt] compares characters as [unsigned char];
    [std::string] compares lexicographically. *)
Fixpoint str_ltb (a b : string) : bool :=
  match a, b with
  | EmptyString, EmptyString => false
  | EmptyString, String _ _ => true
  | String _ _, EmptyString => false
  | String c a', String d b' =>
      if (nat_of_ascii c <? nat_of_ascii d)%nat then true
      else if (nat_of_ascii d <? nat_of_ascii c)%nat then false
      else str_ltb a' b'
  end.

Section Ordered.
Context {A : Type}.

Fixpoint ins_entry (kv : string * A) (l : list (string * A)) : list (string * A) :=
  match l with
  | [] => [kv]
  | kv' :: l' => if str_ltb kv.1 kv'.1 then kv :: kv' :: l' else kv' :: ins_entry kv l'
  end.

(** The entries of a [std::map<std::string,A>] in iteration (key) order. *)
Definition entries (m : gmap string A) : list (string * A) :=
  foldr ins_entry [] (map_to_list m).

End Ordered.

(* ------------------------------------------------------------------ *)
(** ** [ck::var] (src/var.hpp) *)

(** [std::variant<bool,int,float,std::string>].  A [float] is kept as
    its 32-bit pattern: the code only copies it to and from the stream. *)
Inductive var :=
| VBool (b : bool)
| VInt (z : Z)
| VFloat (bits : Z)
| VString (s : string).

(** [var() = default]: [std::variant] value-initialises its FIRST
    alternative, here [bool], so the default [var] holds [false]. *)
Definition var_default : var := VBool false.

Inductive Type_ := TP_NUL | TP_BOOL | TP_INT | TP_FLOAT | TP_STRING.

#[global] Instance Type__eq_dec : EqDecision Type_.
Proof. solve_decision. Defined.

(** [var::type()]: a switch on [d.index()]; [TP_NUL] only for
    [variant_npos], i.e. a valueless variant. *)
Definition var_type (v : var) : Type_ :=
  match v with
  | VBool _ => TP_BOOL
  | VInt _ => TP_INT
  | VFloat _ => TP_FLOAT
  | VString _ => TP_STRING
  end.

(** [var::valid()] is [!d.valueless_by_exception()].  Every alternative
    of this variant is nothrow-move-constructible, so no assignment the
    class offers can leave it valueless: [valid] is constantly true. *)
Definition var_valid (v : var) : bool := true.

Definition type_code (t : Type_) : Z :=
  match t with TP_NUL => 0 | TP_BOOL => 1 | TP_INT => 2 | TP_FLOAT => 3 | TP_STRING => 4 end.

(** [operator const int&()]: the payload, or the default [0]. *)
Definition var_int (v : var) : Z := match v with VInt z => z | _ => 0 end.

(* ------------------------------------------------------------------ *)
(** ** [Text::Property] *)

Abbreviation Property := (gmap string var).

(** [Property::get]: [{}] (the default [var]) when absent. *)
Definition prop_get (name : option string) (p : Property) : var :=
  match name with
  | None => var_default
  | Some n => match p !! n with Some v => v | None => var_default end
  end.

(** [Property::set]. *)
Definition prop_set (name : option string) (value : var) (p : Property) : Property :=
  match name with
  | None => p
  | Some n =>
      if negb (var_valid value) then p else
      let len := String.length n in
      if (len <? 1)%nat || (64 <? len)%nat then p else
      match value with
      | VString s =>
          let len := String.length s in
          if (len <? 1)%nat || (255 <? len)%nat then p else <[n := value]> p
      | _ => <[n := value]> p
      end
  end.

(** [Property::remove(name)] ([std::map::erase] by key). *)
Definition prop_remove (name : string) (p : Property) : Property := delete name p.

(* ------------------------------------------------------------------ *)
(** ** [Text::Group] *)

Definition L10KB : Z := 10485760.

Definition slen (s : string) : Z := Z.of_nat (String.length s).

Record Group := mkGroup {
  g_prop : Property;
  g_map : gmap string string;
  g_priority : Z   (** [uint32_t _priority = 100] *)
}.

Definition group_empty : Group := mkGroup ∅ ∅ 100.

(** [Group::clear]: also resets the priority. *)
Definition group_clear (g : Group) : Group := mkGroup ∅ ∅ 100.

(** [Group::u8]: [None] is [nullptr].  [src] must be non-null (it is
    converted to [std::string] by [find]). *)
Definition group_u8 (g : Group) (src : string) (def : option string) : option string :=
  match g_map g !! src with
  | None => None
  | Some trs => if String.eqb trs "" then def else Some trs
  end.

(** [Group::set]: returns the stored translation or [nullptr]. *)
Definition group_set (src trs : option string) (g : Group) : option string * Group :=
  match src, trs with
  | Some s, Some t =>
      let sz_src := slen s in
      let sz_trs := slen t in
      if (sz_src <? 1) || (L10KB <? sz_src) || (L10KB <? sz_trs)
      then (None, g)
      else (Some t, mkGroup (g_prop g) (<[s := t]> (g_map g)) (g_priority g))
  | _, _ => (None, g)
  end.

(** [Group::remove(src)] ([std::map::erase] by key). *)
Definition group_remove (src : string) (g : Group) : Group :=
  mkGroup (g_prop g) (delete src (g_map g)) (g_priority g).

(* ------------------------------------------------------------------ *)
(** ** [ck::Text] *)

(** Groups live in nodes of the [std::map]; [_sorted] holds pointers to
    those nodes.  The nodes are a heap of locations, [t_map] binds a name
    to the location of its node, and [t_sorted] is the pointer vector.
    Locations are handed out by a counter; the address comparison
    [a < b] of [update_sorted] compares them. *)
Definition loc := positive.

Record Text := mkText {
  t_prop : Property;
  t_map : gmap string loc;
  t_heap : gmap loc Group;
  t_sorted : list loc;
  t_next : loc
}.

(** [Text::Text()]: [_map[""]], nothing else ([_sorted] stays empty). *)
Definition text_new : Text :=
  mkText ∅ {[ "" := 1%positive ]} {[ 1%positive := group_empty ]} [] 2%positive.

Definition set_map (m : gmap string loc) (h : gmap loc Group) (t : Text) : Text :=
  mkText (t_prop t) m h (t_sorted t) (t_next t).
Definition set_prop (p : Property) (t : Text) : Text :=
  mkText p (t_map t) (t_heap t) (t_sorted t) (t_next t).
Definition set_sorted (l : list loc) (t : Text) : Text :=
  mkText (t_prop t) (t_map t) (t_heap t) l (t_next t).

(** The group bound to a name. *)
Definition text_group (t : Text) (n : string) : option Group :=
  match t_map t !! n with Some l => t_heap t !! l | None => None end.

Definition deref (t : Text) (l : loc) : Group :=
  match t_heap t !! l with Some g => g | None => group_empty end.

(** Mutation through a [Group*] obtained from [get] or [insert]. *)
Definition text_update_group (l : loc) (f : Group -> Group) (t : Text) : Text :=
  set_map (t_map t) (<[l := f (deref t l)]> (t_heap t)) t.

(** [Group::set] called through a pointer. *)
Definition text_group_set (l : loc) (src trs : option string) (t : Text) : Text :=
  text_update_group l (fun g => snd (group_set src trs g)) t.

(** The comparator of [update_sorted]. *)
Definition sorted_before (t : Text) (a b : loc) : bool :=
  let pa := g_priority (deref t a) in
  let pb := g_priority (deref t b) in
  (pb <? pa) || ((pa =? pb) && Pos.ltb a b).

Fixpoint ins_loc (lt : loc -> loc -> bool) (x : loc) (l : list loc) : list loc :=
  match l with
  | [] => [x]
  | y :: l' => if lt x y then x :: y :: l' else y :: ins_loc lt x l'
  end.

(** [Text::update_sorted]: every node, then [std::sort] with a strict
    total order, whose result is the unique ordered permutation. *)
Definition update_sorted (t : Text) : Text :=
  set_sorted (foldr (ins_loc (sorted_before t)) [] (map snd (entries (t_map t)))) t.

(** [Text::get]. *)
Definition text_get (name : option string) (t : Text) : option loc :=
  let n := match name with None => "" | Some n => n end in
  t_map t !! n.

(** [Text::u8]: [def] is returned when the group's answer is [g_empty];
    a group returns that pointer exactly when the translation is empty,
    a non-empty translation is never the empty string. *)
Fixpoint u8_loop (t : Text) (ls : list loc) (src : string) (def : option string) : option string :=
  match ls with
  | [] => None
  | l :: ls' =>
      match group_u8 (deref t l) src (Some "") with
      | Some trs => if String.eqb trs "" then def else Some trs
      | None => u8_loop t ls' src def
      end
  end.

Definition text_u8 (t : Text) (src def : option string) : option string :=
  match src with
  | None => None
  | Some s => u8_loop t (t_sorted t) s def
  end.

(** [Text::u8to32] (the definition in text.cpp).  [i] is [unsigned],
    [sz_in] is [size_t]: [sz_in - k] wraps modulo 2^64.  A byte at or
    past [sz_in] is the terminating NUL (or memory past it), read as 0. *)
Definition byte_at (bs : list Z) (i : Z) : Z := nth (Z.to_nat i) bs 0.

Fixpoint u8to32_loop (fuel : nat) (bs : list Z) (sz i : Z) (out : list Z) : list Z :=
  match fuel with
  | O => out
  | S f =>
    if negb (i <? sz) then out else
    let c := byte_at bs i in
    let lim k := (sz - k) mod 2^64 in
    let b k := Z.lxor (byte_at bs (i + k)) 128 in
    if c <? 127 then u8to32_loop f bs sz (i + 1) (out ++ [c])
    else if (c <? 224) && (i <? lim 1) then
      u8to32_loop f bs sz (i + 2) (out ++ [Z.lor (Z.shiftl (Z.lxor c 192) 6) (b 1)])
    else if (c <? 240) && (i <? lim 2) then
      u8to32_loop f bs sz (i + 3)
        (out ++ [Z.lor (Z.lor (Z.shiftl (Z.lxor c 224) 12) (Z.shiftl (b 1) 6)) (b 2)])
    else if i <? lim 3 then
      u8to32_loop f bs sz (i + 4)
        (out ++ [Z.lor (Z.lor (Z.lor (Z.shiftl (Z.lxor c 240) 18) (Z.shiftl (b 1) 12))
                               (Z.shiftl (b 2) 6)) (b 3)])
    else out
  end.

Definition u8to32 (inp : string) : list Z :=
  let bs := map (fun c => Z.of_nat (nat_of_ascii c)) (list_ascii_of_string inp) in
  u8to32_loop (length bs) bs (Z.of_nat (length bs)) 0 [].

(** [__u16to32<char16_t>] behind [Text::u16to32(u16str, ...)]: [us] are
    the 16-bit units before the terminating 0.  [i] is [int], compared
    with the [size_t] length; inside the loop [sz_in >= 1], so
    [sz_in - 1] does not wrap.  A unit at or past [sz_in] is the
    terminator, read as 0. *)
Fixpoint u16to32_loop (fuel : nat) (us : list Z) (sz i : Z) (out : list Z) : list Z :=
  match fuel with
  | O => out
  | S f =>
    if negb (i <? sz) then out else
    let c := byte_at us i in
    if c <? 55296 then u16to32_loop f us sz (i + 1) (out ++ [c])
    else if (c <=? 56319) && (i <? sz - 1) then
      u16to32_loop f us sz (i + 2)
        (out ++ [Z.lor (Z.shiftl (Z.lxor c 55296) 10) (Z.lxor (byte_at us (i + 1)) 56320)])
    else u16to32_loop f us sz (i + 1) out
  end.

Definition u16to32 (us : list Z) : list Z :=
  u16to32_loop (length us) us (Z.of_nat (length us)) 0 [].

(** The result of [Text::u32]: [nullptr], the shared buffer's contents,
    or undefined behaviour ([u8to32(nullptr, ...)] calls [strlen] on a
    null pointer when [def] is left at its default). *)
Inductive u32res := U32Null | U32Str (cs : list Z) | U32Undefined.

Fixpoint u32_loop (t : Text) (ls : list loc) (src : string) (def : option string) : u32res :=
  match ls with
  | [] => U32Null
  | l :: ls' =>
      match group_u8 (deref t l) src (Some "") with
      | Some trs =>
          if String.eqb trs "" then
            (match def with Some d => U32Str (u8to32 d) | None => U32Undefined end)
          else U32Str (u8to32 trs)
      | None => u32_loop t ls' src def
      end
  end.

(** [Text::u32]. *)
Definition text_u32 (t : Text) (src def : option string) : u32res :=
  match src with
  | None => U32Null
  | Some s => u32_loop t (t_sorted t) s def
  end.

(** [Text::begin()]: the node with the least key. *)
Definition text_begin (t : Text) : option string :=
  match entries (t_map t) with [] => None | kv :: _ => Some kv.1 end.

(** Erase the node bound to [n] (the map entry and the [Group] in it). *)
Definition erase_key (n : string) (m : gmap string loc) (h : gmap loc Group)
  : gmap string loc * gmap loc Group :=
  match m !! n with
  | Some l => (delete n m, delete l h)
  | None => (m, h)
  end.

(** [Text::rename]: [extract] the node of [oldName], rekey it, insert it.
    [None] is undefined behaviour: a failed [insert(std::move(it))] moves
    the node into its result, so [it] is an empty handle and
    [it.key() = oldName] breaks the precondition of [key()]; a null name
    builds the [std::string] key from a null pointer. *)
Definition text_rename (oldName newName : option string) (t : Text) : option (bool * Text) :=
  match oldName, newName with
  | Some o, Some n =>
      match t_map t !! o with
      | None => Some (false, t)
      | Some l =>
          let m := delete o (t_map t) in
          match m !! n with
          | Some _ => None
          | None => Some (true, set_map (<[n := l]> m) (t_heap t) t)
          end
      end
  | _, _ => None
  end.

(** [Text::remove] by name. *)
Definition text_remove (name : option string) (t : Text) : Text :=
  match name with
  | None => t
  | Some n =>
      if (0 <? String.length n)%nat then
        let '(m, h) := erase_key n (t_map t) (t_heap t) in update_sorted (set_map m h t)
      else
        match t_map t !! n with
        | Some l => update_sorted (text_update_group l group_clear t)
        | None => update_sorted t
        end
  end.

(** [Text::remove(iterator)], the iterator designating the node of key [n]. *)
Definition text_remove_it (n : string) (t : Text) : Text :=
  let '(m, h) := erase_key n (t_map t) (t_heap t) in update_sorted (set_map m h t).

(** The loop of [Text::clear]: walk the keys in order, skip [""], erase
    the others, stop once a single node is left. *)
Fixpoint clear_loop (ks : list string) (m : gmap string loc) (h : gmap loc Group)
  : gmap string loc * gmap loc Group :=
  match ks with
  | [] => (m, h)
  | k :: ks' =>
      if (size m <=? 1)%nat then (m, h)
      else if String.eqb k "" then clear_loop ks' m h
      else let '(m', h') := erase_key k m h in clear_loop ks' m' h'
  end.

(** [Text::clear].  If no node is left, [_map.begin()->second] would
    dereference [end()]; the model then changes nothing more. *)
Definition text_clear (t : Text) : Text :=
  let t := set_prop ∅ t in
  let '(m, h) := clear_loop (map fst (entries (t_map t))) (t_map t) (t_heap t) in
  let t := set_map m h t in
  let t := match text_begin t with
           | Some k => match t_map t !! k with
                       | Some l => text_update_group l group_clear t
                       | None => t
                       end
           | None => t
           end in
  update_sorted t.

(** [(int)var] stored into the [uint32_t] field. *)
Definition to_u32 (z : Z) : Z := z mod 2^32.

(** The priority derivation shared by [Text::insert] and [load]: an [int]
    "priority" is stored into the [uint32_t] field, then the field is
    compared with 0 (an unsigned comparison). *)
Definition derive_priority (p : Property) (prio : Z) : Z :=
  let v := prop_get (Some "priority") p in
  let prio := match var_type v with TP_INT => to_u32 (var_int v) | _ => prio end in
  if prio <? 0 then 0 else prio.

(** [Text::insert]: returns the new group's node, or [nullptr]. *)
Definition text_insert (name : option string) (prop : Property) (t : Text) : option loc * Text :=
  match name with
  | None => (None, t)
  | Some n =>
      let len := String.length n in
      if (len <? 1)%nat || (64 <? len)%nat then (None, t) else
      match t_map t !! n with
      | Some _ => (None, t)
      | None =>
          let l := t_next t in
          let g := mkGroup prop ∅ (derive_priority prop 100) in
          (Some l, update_sorted (mkText (t_prop t) (<[n := l]> (t_map t))
                                         (<[l := g]> (t_heap t)) (t_sorted t) (Pos.succ l)))
      end
  end.

(** [Text::empty]: a single node whose group has no translation.  With no
    node at all, [_map.begin()] is [end()]; the model answers [true]. *)
Definition text_empty (t : Text) : bool :=
  if (size (t_map t) <? 2)%nat then
    match entries (t_map t) with
    | (_, l) :: _ => bool_decide (g_map (deref t l) = ∅)
    | [] => true
    end
  else false.

(* ------------------------------------------------------------------ *)
(** ** Byte streams *)

Definition byte_of (z : Z) : ascii := ascii_of_N (Z.to_N (z mod 256)).
Definition val_byte (c : ascii) : Z := Z.of_N (N_of_ascii c).

(** The [w] little-endian bytes of [z], i.e. of [z mod 2^(8w)]. *)
Fixpoint bytes_of (w : nat) (z : Z) : list ascii :=
  match w with
  | O => []
  | S w' => byte_of z :: bytes_of w' (z / 256)
  end.

(** Unsigned little-endian value of a byte sequence. *)
Fixpoint val_of (bs : list ascii) : Z :=
  match bs with
  | [] => 0
  | c :: bs' => val_byte c + 256 * val_of bs'
  end.

Definition to_int32 (u : Z) : Z := if u <? 2^31 then u else u - 2^32.

(** The in-memory reader of [bio] ([make_reader(buf, size)]): a buffer
    and a position; [read] copies what is left up to the request and
    advances; [offset] moves the position relative to where it is. *)
Record stream := mkStream { s_buf : list ascii; s_pos : nat }.

Definition st_read (n : nat) (s : stream) : list ascii * stream :=
  let bs := firstn n (skipn (s_pos s) (s_buf s)) in
  (bs, mkStream (s_buf s) (s_pos s + length bs)).

Definition st_offset (ofs : Z) (s : stream) : stream :=
  mkStream (s_buf s) (Z.to_nat (Z.max 0 (Z.of_nat (s_pos s) + ofs))).

(** [int x = init; rd.read(&x, n)]: the bytes read replace the low bytes
    of [x]. *)
Definition rd_int (n : nat) (init : Z) (s : stream) : Z * stream :=
  let '(bs, s) := st_read n s in
  (to_int32 (val_of (bs ++ skipn (length bs) (bytes_of 4 init))), s).

(** [bool v = init; rd.read(&v, 1)]. *)
Definition rd_bool (init : bool) (s : stream) : bool * stream :=
  let '(bs, s) := st_read 1 s in
  match bs with [] => (init, s) | c :: _ => (negb (Ascii.eqb c "000"%char), s) end.

(** [std::string::resize]: keeps the prefix, pads with NUL. *)
Definition resize (s : list ascii) (n : nat) : list ascii :=
  firstn n s ++ repeat "000"%char (n - length s).

(** Bytes [bs] copied to [s.data() + pos]. *)
Definition overwrite (s : list ascii) (pos : nat) (bs : list ascii) : list ascii :=
  firstn pos s ++ bs ++ skipn (pos + length bs) s.

(** The chunked copy loop of the free function [read_str]. *)
Fixpoint read_chunks (fuel : nat) (pos remain : Z) (out : list ascii) (s : stream)
  : list ascii * stream :=
  match fuel with
  | O => (out, s)
  | S f =>
      if 0 <? remain then
        let n := if 1024 <? remain then 1024 else remain in
        let '(bs, s) := st_read (Z.to_nat n) s in
        read_chunks f (pos + 1024) (remain - 1024) (overwrite out (Z.to_nat pos) bs) s
      else (out, s)
  end.

(** The free function [read_str(rd, out)] (translation items). *)
Definition item_read_str (out : string) (s : stream) : Z * string * stream :=
  let '(sz, s) := rd_int 4 0 s in
  if (sz <? 1) || (L10KB <? sz) then (0, out, s) else
  let buf := resize (list_ascii_of_string out) (Z.to_nat sz) in
  let '(buf, s) := read_chunks (Z.to_nat sz) 0 sz buf s in
  (sz, string_of_list_ascii buf, s).

(** The [read_str] lambda of [read(ireader&, Property&)]: [out] is a
    fresh [std::string]. *)
Definition attr_read_str (max_size : Z) (s : stream) : Z * string * stream :=
  let '(sz, s) := rd_int 1 0 s in
  if (sz <? 1) || (max_size <? sz) then (-1, "", s) else
  let '(bs, s) := st_read (Z.to_nat sz) s in
  (sz, string_of_list_ascii (overwrite (repeat "000"%char (Z.to_nat sz)) 0 bs), s).

(** [read(ireader&, Text::Property&)]: one AttributeRecord. *)
Definition prop_read (s : stream) (o : Property) : bool * Property * stream :=
  let '(ty, s) := rd_int 1 0 s in            (* var::Type type = TP_NUL *)
  if (ty <? 1) || (4 <? ty) then (false, o, st_offset (-1) s) else
  let '(sz_name, name, s) := attr_read_str 64 s in
  if sz_name <? 0 then (false, o, st_offset (-2) s) else
  let nm := Some (cstr name) in
  if ty =? 1 then
    let '(v, s) := rd_bool false s in (true, prop_set nm (VBool v) o, s)
  else if ty =? 2 then
    let '(v, s) := rd_int 4 0 s in (true, prop_set nm (VInt v) o, s)
  else if ty =? 3 then
    let '(bs, s) := st_read 4 s in
    (true, prop_set nm (VFloat (val_of (bs ++ skipn (length bs) (bytes_of 4 0)))) o, s)
  else
    let '(r, v, s) := attr_read_str 255 s in
    let sz_str := r mod 256 in                 (* uint8_t sz_str = read_str(v, 255) *)
    if sz_str <? 0 then (false, o, st_offset (-3 - sz_name) s)
    else (true, prop_set nm (VString v) o, s).

(** The [read_attr] lambda of [load]: clear, then [sz] records; on a
    failing record clear again and report failure. *)
Fixpoint read_attr_loop (fuel : nat) (p : Property) (s : stream) : bool * Property * stream :=
  match fuel with
  | O => (true, p, s)
  | S f =>
      let '(ok, p, s) := prop_read s p in
      if ok then read_attr_loop f p s else (false, ∅, s)
  end.

Definition read_attr (sz : Z) (s : stream) : bool * Property * stream :=
  read_attr_loop (Z.to_nat sz) ∅ s.

(** The item loop of [load]: [error = true; break] on a bad source
    length.  [auto& trs = map[src]] creates the entry before [read_str]
    fills it. *)
Fixpoint read_items (fuel : nat) (m : gmap string string) (src : string) (s : stream)
  : bool * gmap string string * string * stream :=
  match fuel with
  | O => (false, m, src, s)
  | S f =>
      let '(sz, src, s) := item_read_str src s in
      if sz <? 1 then (true, m, src, s) else
      let trs := match m !! src with Some x => x | None => "" end in
      let '(_, trs, s) := item_read_str trs s in
      read_items f (<[src := trs]> m) src s
  end.

(** End of a group iteration of [load]: a new name gets a new node
    ([_map[name] = std::move(group)]); an existing group receives the
    translations one by one through [Group::set]. *)
Definition merge_group (name : string) (g : Group) (t : Text) : Text :=
  match t_map t !! name with
  | None =>
      let l := t_next t in
      mkText (t_prop t) (<[name := l]> (t_map t)) (<[l := g]> (t_heap t)) (t_sorted t) (Pos.succ l)
  | Some l =>
      text_update_group l
        (fun g0 => foldl (fun acc kv => snd (group_set (Some (cstr kv.1)) (Some (cstr kv.2)) acc))
                         g0 (entries (g_map g))) t
  end.

(** How the group loop of [load] ends: [GAbort] is the [return false]
    after a failing property table; [GDone err] is the end of the loop
    with the [error] flag. *)
Inductive gout := GAbort (t : Text) | GDone (err : bool) (t : Text).

(** The group name of [load]: [name.clear()] for length 0, else
    [name.resize(sz_name)] and a read into [name.data()]. *)
Definition group_name_read (sz_name : Z) (name : string) (s : stream) : string * stream :=
  if sz_name =? 0 then ("", s)
  else let '(bs, s) := st_read (Z.to_nat sz_name) s in
       (string_of_list_ascii
          (overwrite (resize (list_ascii_of_string name) (Z.to_nat sz_name)) 0 bs), s).

(** The group loop of [load].  [name] and [src] are the loop's
    [std::string] buffers, kept from one iteration to the next; [group]
    is empty at the start of every iteration (fresh, then [clear()]ed). *)
Fixpoint load_groups (fuel : nat) (error : bool) (name src : string) (t : Text) (s : stream)
  : gout :=
  match fuel with
  | O => GDone error t
  | S f =>
      let '(sz_name, s) := rd_int 1 0 s in
      if (sz_name <? 0) || (64 <? sz_name) then GDone true t else
      let '(name, s) := group_name_read sz_name name s in
      let '(sz_attr, s) := rd_int 4 0 s in
      let '(sz_item, s) := rd_int 4 0 s in
      let '(ok, gp, s) := read_attr sz_attr s in
      if negb ok then GAbort t else
      let prio := derive_priority gp 100 in
      let '(err, items, src, s) := read_items (Z.to_nat sz_item) ∅ src s in
      let t := merge_group name (mkGroup gp items prio) t in
      load_groups f (error || err) name src t s
  end.

Section Codec.

(** The external frame compressor of [lz4xx]: [compress] maps the
    uncompressed payload to a frame, [decompress] inflates the frame that
    starts at the reader's position. *)
Variable lz4_compress : list ascii -> list ascii.
Variable lz4_decompress : list ascii -> list ascii.

Definition tag_CKT : list ascii := ["C"; "K"; "T"]%char.

(** The template [load(Text&, Rd&)].  A short read of the tag leaves
    bytes of [tag] indeterminate; the model counts it as a mismatch. *)
Definition load (t : Text) (s : stream) : bool * Text :=
  let '(tag, s) := st_read 3 s in
  let '(compressed, s) := rd_bool true s in
  if negb (bool_decide (tag = tag_CKT)) then (false, t) else
  let s := if compressed
           then mkStream (lz4_decompress (skipn (s_pos s) (s_buf s))) 0
           else s in
  let '(sz_attr, s) := rd_int 4 0 s in
  let '(sz_group, s) := rd_int 4 0 s in
  let '(ok, p, s) := read_attr sz_attr s in
  let t := set_prop p t in
  if negb ok then (false, t) else
  match load_groups (Z.to_nat sz_group) false "" "" t s with
  | GAbort t => (false, t)
  | GDone true t => (false, text_clear t)
  | GDone false t => (true, t)
  end.

(** [Text::load(buf, size)]; [Text::open(path)] is the same on the
    file's bytes. *)
Definition text_load (buf : list ascii) (t : Text) : bool * Text :=
  let '(ret, t) := load t (mkStream buf 0) in (ret, update_sorted t).

(** [write(ck::writer&, const Text::Property&)]. *)
Definition write_str (s : string) : list ascii :=
  bytes_of 1 (slen s) ++ list_ascii_of_string s.

Definition write_value (v : var) : list ascii :=
  match v with
  | VBool b => [if b then "001"%char else "000"%char]
  | VInt z => bytes_of 4 z
  | VFloat bits => bytes_of 4 bits
  | VString s => write_str s
  end.

Definition write_entry (kv : string * var) : list ascii :=
  let '(name, v) := kv in
  if bool_decide (var_type v = TP_NUL) then [] else
  if (String.length name =? 0)%nat || (64 <? String.length name)%nat then [] else
  bytes_of 1 (type_code (var_type v)) ++ write_str name ++ write_value v.

Definition write_props (p : Property) : list ascii :=
  concat (map write_entry (entries p)).

(** One ItemRecord of [Text::save]. *)
Definition write_item (it : string * string) : list ascii :=
  bytes_of 4 (slen it.1) ++ list_ascii_of_string it.1 ++
  bytes_of 4 (slen it.2) ++ list_ascii_of_string it.2.

(** One GroupRecord of [Text::save]. *)
Definition write_group (t : Text) (kv : string * loc) : list ascii :=
  let '(name, l) := kv in
  let g := deref t l in
  bytes_of 1 (slen name) ++ list_ascii_of_string name ++
  bytes_of 4 (Z.of_nat (size (g_prop g))) ++
  bytes_of 4 (Z.of_nat (size (g_map g))) ++
  write_props (g_prop g) ++
  concat (map write_item (entries (g_map g))).

(** What [Text::save] writes after "CKT" and the compression flag. *)
Definition save_body (t : Text) : list ascii :=
  bytes_of 4 (Z.of_nat (size (t_prop t))) ++
  if text_empty t then bytes_of 4 0 ++ write_props (t_prop t)
  else bytes_of 4 (Z.of_nat (size (t_map t))) ++ write_props (t_prop t) ++
       concat (map (write_group t) (entries (t_map t))).

(** [Text::save(path, compress)]: the bytes of the file it leaves (I/O
    itself taken to succeed).  The flag is written as given; an [empty()]
    Document returns right after its body, before the compression step;
    otherwise, with [compress], the uncompressed file is re-read from
    offset 4 through the compressor. *)
Definition text_save (t : Text) (compress : bool) : list ascii :=
  tag_CKT ++ [if compress then "001"%char else "000"%char] ++
  (if text_empty t then save_body t
   else if compress then lz4_compress (save_body t) else save_body t).

End Codec.


(* ------------------------------------------------------------------ *)
(** ** Validity of a Document (what the public setters let through) *)

Definition name_okb (n : string) : bool :=
  (1 <=? String.length n)%nat && (String.length n <=? 64)%nat && nul_free n.

(** [int] and [float] payloads are 32-bit; strings of a table 1..255. *)
Definition value_okb (v : var) : bool :=
  match v with
  | VBool _ => true
  | VInt z => (- 2^31 <=? z) && (z <? 2^31)
  | VFloat bits => (0 <=? bits) && (bits <? 2^32)
  | VString s => (1 <=? String.length s)%nat && (String.length s <=? 255)%nat
  end.

Definition prop_okb (p : Property) : bool :=
  forallb (fun kv => name_okb kv.1 && value_okb kv.2) (map_to_list p) &&
  (Z.of_nat (size p) <? 2^31).

(** A translation pair as [Group::set] stores it. *)
Definition item_okb (kv : string * string) : bool :=
  (1 <=? slen kv.1) && (slen kv.1 <=? L10KB) && (slen kv.2 <=? L10KB) &&
  nul_free kv.1 && nul_free kv.2.

Definition group_okb (g : Group) : bool :=
  prop_okb (g_prop g) && forallb item_okb (map_to_list (g_map g)) &&
  (Z.of_nat (size (g_map g)) <? 2^31).

Definition text_okb (t : Text) : bool :=
  prop_okb (t_prop t) && bool_decide (is_Some (t_map t !! "")) &&
  forallb (fun kv => (String.length kv.1 <=? 64)%nat &&
                     match t_heap t !! kv.2 with Some g => group_okb g | None => false end)
          (map_to_list (t_map t)) &&
  (Z.of_nat (size (t_map t)) <? 2^31).

(** [g->prop().set(name, value)] through a [Group*]. *)
Definition text_group_prop_set (l : loc) (name : option string) (value : var) (t : Text) : Text :=
  text_update_group l
    (fun g => mkGroup (prop_set name value (g_prop g)) (g_map g) (g_priority g)) t.

(** [Text t; t.get()->prop().set("p", 1); t.get()->set("k", "v");
    auto g = t.insert("g", {{"priority", 5}}); g->set("a", "b");] *)
Definition demo_text : Text :=
  let t := text_group_prop_set 1%positive (Some "p") (VInt 1) text_new in
  let t := text_group_set 1%positive (Some "k") (Some "v") t in
  let '(ol, t) := text_insert (Some "g") {[ "priority" := VInt 5 ]} t in
  match ol with Some l => text_group_set l (Some "a") (Some "b") t | None => t end.

(** [t.prop().set(name, value)]. *)
Definition text_prop_set (name : option string) (value : var) (t : Text) : Text :=
  set_prop (prop_set name value (t_prop t)) t.

(** A mutation through the [Group*] of [t.get(name)] (or of the pointer
    [insert] returned, which is the same node). *)
Definition text_with_group (name : option string) (f : Group -> Group) (t : Text) : Text :=
  match text_get name t with
  | Some l => text_update_group l f t
  | None => t
  end.

(** The Documents a program builds with the public interface: a fresh
    [Text], then any sequence of [insert], [remove] (by name or by
    iterator), [rename], [clear], [load]/[open], [prop().set],
    [prop().remove], and, through a [Group*], [set], [remove],
    [prop().set], [prop().remove] and [clear]. *)
Inductive reachable : Text -> Prop :=
| R_new : reachable text_new
| R_insert name prop t : reachable t -> reachable (snd (text_insert name prop t))
| R_remove name t : reachable t -> reachable (text_remove name t)
| R_remove_it n t : reachable t -> reachable (text_remove_it n t)
| R_rename o n b t t' : reachable t -> text_rename o n t = Some (b, t') -> reachable t'
| R_clear t : reachable t -> reachable (text_clear t)
| R_load dec buf t : reachable t -> reachable (snd (text_load dec buf t))
| R_prop_set name v t : reachable t -> reachable (text_prop_set name v t)
| R_prop_remove name t : reachable t -> reachable (set_prop (prop_remove name (t_prop t)) t)
| R_group_set name src trs t :
    reachable t -> reachable (text_with_group name (fun g => snd (group_set src trs g)) t)
| R_group_remove name src t :
    reachable t -> reachable (text_with_group name (group_remove src) t)
| R_group_prop_set name pn v t :
    reachable t ->
    reachable (text_with_group name
                 (fun g => mkGroup (prop_set pn v (g_prop g)) (g_map g) (g_priority g)) t)
| R_group_prop_remove name pn t :
    reachable t ->
    reachable (text_with_group name
                 (fun g => mkGroup (prop_remove pn (g_prop g)) (g_map g) (g_priority g)) t)
| R_group_clear name t : reachable t -> reachable (text_with_group name group_clear t).

(** UTF-8 encoding of a code point (the reference the decoder is checked
    against; not part of the library). *)
Definition utf8_encode (cp : Z) : list Z :=
  if cp <? 128 then [cp]
  else if cp <? 2048 then [192 + cp / 64; 128 + cp mod 64]
  else if cp <? 65536 then [224 + cp / 4096; 128 + (cp / 64) mod 64; 128 + cp mod 64]
  else [240 + cp / 262144; 128 + (cp / 4096) mod 64; 128 + (cp / 64) mod 64; 128 + cp mod 64].

(** UTF-16 encoding of a code point (reference, as above). *)
Definition utf16_encode (cp : Z) : list Z :=
  if cp <? 65536 then [cp]
  else [55296 + (cp - 65536) / 1024; 56320 + (cp - 65536) mod 1024].

(** The bytes of a [const char*] string. *)
Definition str_bytes (s : string) : list Z :=
  map (fun c => Z.of_nat (nat_of_ascii c)) (list_ascii_of_string s).

(** A code point the decoder handles: not the terminator, not DEL, at
    most U+10FFFF. *)
Definition utf8_ok (cp : Z) : Prop := 0 < cp < 1114112 /\ cp <> 127.

(** A Unicode scalar value other than the terminator: nonzero, not a
    surrogate, at most U+10FFFF. *)
Definition utf16_scalar (cp : Z) : Prop := 0 < cp < 55296 \/ 57344 <= cp < 1114112.

(** The UTF-8 bytes of H, U+00E9, U+20AC and U+1F600. *)
Definition u8_sample : string :=
  string_of_list_ascii (map ascii_of_nat [72; 195; 169; 226; 130; 172; 240; 159; 152; 128]%nat).

(** A file whose second group has a property record with type tag 0:
    group "a" holds k -> v, group "b" announces one attribute. *)
Definition bad_attr_file : list ascii :=
  tag_CKT ++ [byte_of 0] ++ bytes_of 4 0 ++ bytes_of 4 2 ++
  [byte_of 1; "a"%char] ++ bytes_of 4 0 ++ bytes_of 4 1 ++
  bytes_of 4 1 ++ ["k"%char] ++ bytes_of 4 1 ++ ["v"%char] ++
  [byte_of 1; "b"%char] ++ bytes_of 4 1 ++ bytes_of 4 0 ++ [byte_of 0].

(** A file whose only named group "n" has "priority" = -1. *)
Definition neg_priority_file : list ascii :=
  tag_CKT ++ [byte_of 0] ++ bytes_of 4 0 ++ bytes_of 4 1 ++
  [byte_of 1; "n"%char] ++ bytes_of 4 1 ++ bytes_of 4 0 ++
  [byte_of 2; byte_of 8] ++ list_ascii_of_string "priority" ++ bytes_of 4 (-1).

(* ------------------------------------------------------------------ *)
(** ** Round-trip auxiliaries *)

(** The unread bytes of a stream. *)
Definition rest (s : stream) : list ascii := skipn (s_pos s) (s_buf s).

(** A group as [load] rebuilds it from its record. *)
Definition reloaded (g : Group) : Group :=
  mkGroup (g_prop g) (g_map g) (derive_priority (g_prop g) 100).

(** The merge of [load] into an existing group. *)
Definition merge_into (g g0 : Group) : Group :=
  foldl (fun acc kv => snd (group_set (Some (cstr kv.1)) (Some (cstr kv.2)) acc))
        g0 (entries (g_map g)).

(** The Document a run of the group loop leaves. *)
Definition gout_text (r : gout) : Text := match r with GAbort t => t | GDone _ t => t end.

(** Node invariant: every bound location is below the counter and
    allocated, and no two names share a node. *)
Definition wf (u : Text) : Prop :=
  (forall n (l : loc), t_map u !! n = Some l -> (l < t_next u)%positive /\ is_Some (t_heap u !! l)) /\
  (forall n1 n2 l, t_map u !! n1 = Some l -> t_map u !! n2 = Some l -> n1 = n2).

(* ================================================================== *)
(** * Theorems *)

(** C10: Text::u8 and Text::u32 with a null source return nullptr, for
    every Document state and every default. *)
Theorem text_lookup_null_src (t : Text) (def : option string) :
  text_u8 t None def = None /\ text_u32 t None def = U32Null.
Proof. split; reflexivity. Qed.

(** C2: Group::u8 returns the stored translation when it is non-empty,
    [def] when the source is present with an empty translation, and
    nullptr when the source is absent. *)
Theorem group_u8_three_way (g : Group) (src : string) (def : option string) :
  (forall trs, g_map g !! src = Some trs -> trs <> "" -> group_u8 g src def = Some trs) /\
  (g_map g !! src = Some "" -> group_u8 g src def = def) /\
  (g_map g !! src = None -> group_u8 g src def = None).
Proof.
  unfold group_u8. repeat split.
  - intros trs H Hne. rewrite H. destruct (String.eqb_spec trs ""); [contradiction | reflexivity].
  - intros H. rewrite H. reflexivity.
  - intros H. rewrite H. reflexivity.
Qed.

Lemma group_u8_three_way_witness :
  group_u8 (mkGroup ∅ {[ "k" := "v" ]} 100) "k" None = Some "v" /\
  group_u8 (mkGroup ∅ {[ "k" := "" ]} 100) "k" (Some "fb") = Some "fb" /\
  group_u8 (mkGroup ∅ ∅ 100) "k" None = None.
Proof.
  split; [| split].
  - apply (proj1 (group_u8_three_way (mkGroup ∅ {[ "k" := "v" ]} 100) "k" None) "v");
      [reflexivity | discriminate].
  - apply (proj1 (proj2 (group_u8_three_way (mkGroup ∅ {[ "k" := "" ]} 100) "k" (Some "fb"))));
      reflexivity.
  - apply (proj2 (proj2 (group_u8_three_way (mkGroup ∅ ∅ 100) "k" None))); reflexivity.
Defined.

(** C6: Property::set leaves the table unchanged for a null name, a name
    of length 0 or over 64, or a String value of length 0 or over 255,
    and otherwise inserts or overwrites; Group::set returns nullptr and
    leaves the group unchanged for a null argument, a source of length 0
    or over 10485760, or a translation over 10485760, and otherwise
    stores the pair and returns the translation, the empty one included. *)
Theorem set_bounds :
  (forall name v (p : Property),
      (name = None \/ exists n, name = Some n /\
         (String.length n = 0%nat \/ (64 < String.length n)%nat)) ->
      prop_set name v p = p) /\
  (forall name s (p : Property),
      (String.length s = 0%nat \/ (255 < String.length s)%nat) ->
      prop_set name (VString s) p = p) /\
  (forall n v (p : Property),
      (1 <= String.length n <= 64)%nat ->
      (forall s, v = VString s -> (1 <= String.length s <= 255)%nat) ->
      prop_set (Some n) v p = <[n := v]> p) /\
  (forall src trs g,
      (src = None \/ trs = None \/
       exists s t, src = Some s /\ trs = Some t /\
                   (slen s = 0 \/ L10KB < slen s \/ L10KB < slen t)) ->
      group_set src trs g = (None, g)) /\
  (forall s t g,
      1 <= slen s <= L10KB -> slen t <= L10KB ->
      group_set (Some s) (Some t) g =
        (Some t, mkGroup (g_prop g) (<[s := t]> (g_map g)) (g_priority g))).
Proof.
  split; [| split; [| split; [| split]]].
  - intros name v p [-> | (n & -> & Hn)]; [reflexivity |].
    unfold prop_set; simpl.
    destruct Hn as [Hn | Hn].
    + rewrite Hn. reflexivity.
    + assert (E : (64 <? String.length n)%nat = true) by (apply Nat.ltb_lt; exact Hn).
      rewrite E, orb_true_r. reflexivity.
  - intros name s p Hs. unfold prop_set. destruct name as [n |]; [| reflexivity]. simpl.
    destruct ((String.length n <? 1)%nat || (64 <? String.length n)%nat); [reflexivity |].
    destruct Hs as [Hs | Hs].
    + rewrite Hs. reflexivity.
    + assert (E : (255 <? String.length s)%nat = true) by (apply Nat.ltb_lt; exact Hs).
      rewrite E, orb_true_r. reflexivity.
  - intros n v p Hn Hv. unfold prop_set; simpl.
    assert (E1 : (String.length n <? 1)%nat = false) by (apply Nat.ltb_ge; lia).
    assert (E2 : (64 <? String.length n)%nat = false) by (apply Nat.ltb_ge; lia).
    rewrite E1, E2. simpl.
    destruct v as [b | z | bits | s]; try reflexivity.
    specialize (Hv s eq_refl).
    assert (E3 : (String.length s <? 1)%nat = false) by (apply Nat.ltb_ge; lia).
    assert (E4 : (255 <? String.length s)%nat = false) by (apply Nat.ltb_ge; lia).
    rewrite E3, E4. reflexivity.
  - intros src trs g [-> | [-> | (s & t & -> & -> & Hb)]];
      [reflexivity | destruct src; reflexivity |].
    unfold group_set, L10KB in *.
    destruct Hb as [Hb | [Hb | Hb]].
    + rewrite Hb. reflexivity.
    + assert (E : (10485760 <? slen s) = true) by (apply Z.ltb_lt; exact Hb).
      rewrite E, orb_true_r. reflexivity.
    + assert (E : (10485760 <? slen t) = true) by (apply Z.ltb_lt; exact Hb).
      rewrite E, orb_true_r. reflexivity.
  - intros s t g Hs Ht. unfold group_set, L10KB in *.
    assert (E1 : (slen s <? 1) = false) by (apply Z.ltb_ge; lia).
    assert (E2 : (10485760 <? slen s) = false) by (apply Z.ltb_ge; lia).
    assert (E3 : (10485760 <? slen t) = false) by (apply Z.ltb_ge; lia).
    rewrite E1, E2, E3. reflexivity.
Qed.

Lemma set_bounds_witness :
  prop_set (Some "") (VInt 1) ∅ = ∅ /\
  prop_set (Some "n") (VString "") ∅ = ∅ /\
  prop_set (Some "n") (VInt 1) ∅ = {[ "n" := VInt 1 ]} /\
  group_set (Some "") (Some "x") group_empty = (None, group_empty) /\
  group_set (Some "k") (Some "") group_empty =
    (Some "", mkGroup ∅ (<[ "k" := "" ]> ∅) 100).
Proof.
  destruct set_bounds as (H1 & H2 & H3 & H4 & H5).
  split; [| split; [| split; [| split]]].
  - apply H1. right. exists "". split; [reflexivity | left; reflexivity].
  - apply H2. left. reflexivity.
  - rewrite (H3 "n" (VInt 1) ∅); [reflexivity | simpl; lia | discriminate].
  - apply H4. right. right. exists "", "x".
    split; [reflexivity | split; [reflexivity | left; reflexivity]].
  - apply (H5 "k" "" group_empty); unfold slen, L10KB; simpl; lia.
Defined.

(** C1 (code_bug): the constructor does not build [_sorted].  On a fresh
    Document whose default group holds k -> v, Text::u8 and Text::u32
    still answer nullptr: no group is consulted at all. *)
Theorem fresh_text_lookup_misses_default :
  let t := text_group_set 1%positive (Some "k") (Some "v") text_new in
  text_get None text_new = Some 1%positive /\
  (text_group t "" ≫= fun g => g_map g !! "k") = Some "v" /\
  t_sorted t = [] /\
  text_u8 t (Some "k") None = None /\
  text_u32 t (Some "k") None = U32Null.
Proof. vm_compute. repeat split. Qed.

(** C4 (code_bug): a property record with type tag 0 in the second
    group makes [load] return false without [clear()]: the first group
    of the file stays in the Document. *)
Theorem load_attr_failure_keeps_groups :
  let '(ok, t) := text_load id bad_attr_file text_new in
  ok = false /\ size (t_map t) = 2%nat /\
  (text_group t "a" ≫= fun g => g_map g !! "k") = Some "v".
Proof. vm_compute. repeat split. Qed.

(** C5 (code_bug): a String record with string length 0 is not
    reported: [sz_str] is a [uint8_t], so [sz_str < 0] never holds; the
    record is consumed (4 bytes), nothing is rewound, true is returned. *)
Theorem read_empty_string_record_accepted :
  prop_read (mkStream [byte_of 4; byte_of 1; "a"%char; byte_of 0] 0) ∅ =
    (true, ∅, mkStream [byte_of 4; byte_of 1; "a"%char; byte_of 0] 4).
Proof. vm_compute. reflexivity. Qed.

(** C7 (code_bug): removing through the iterator [begin()] erases the
    default group; so does renaming "" to another name. *)
Theorem default_group_erasable :
  text_begin text_new = Some "" /\
  text_group (text_remove_it "" text_new) "" = None /\
  option_map (fun r => text_group (snd r) "") (text_rename (Some "") (Some "g") text_new) =
    Some None.
Proof. vm_compute. repeat split. Qed.

(** C8 (code_bug): [_priority] is a [uint32_t]: an [int] priority of -1
    becomes 4294967295 (the [< 0] test never holds), at insert and at
    load, and that group is sorted first, above the default group. *)
Theorem negative_priority_wraps :
  let '(lo, t) := text_insert (Some "n") {[ "priority" := VInt (-1) ]} text_new in
  let '(ok, t2) := text_load id neg_priority_file text_new in
  lo = Some 2%positive /\
  (text_group t "n" ≫= fun g => Some (g_priority g)) = Some 4294967295 /\
  t_sorted t = [2%positive; 1%positive] /\
  ok = true /\
  (text_group t2 "n" ≫= fun g => Some (g_priority g)) = Some 4294967295 /\
  t_sorted t2 = [2%positive; 1%positive].
Proof. vm_compute. repeat split. Qed.

(** C9 (code_bug): the default-constructed [var] holds [bool false]: its
    tag is TP_BOOL, it is valid, Property::set stores it and the writer
    serialises it as a Bool record. *)
Theorem default_var_is_bool :
  var_type var_default = TP_BOOL /\ var_valid var_default = true /\
  prop_set (Some "a") var_default ∅ = {[ "a" := VBool false ]} /\
  write_props {[ "a" := var_default ]} = [byte_of 1; byte_of 1; "a"%char; byte_of 0].
Proof. vm_compute. repeat split. Qed.

(* ------------------------------------------------------------------ *)
(** ** Round trip of the codec: the reading side consumes what the
    writing side produced *)

Module RoundTrip.

(** What is left to read. *)

Lemma st_read_exact (s : stream) (bs r : list ascii) :
  rest s = bs ++ r ->
  fst (st_read (length bs) s) = bs /\ rest (snd (st_read (length bs) s)) = r.
Proof.
  unfold rest, st_read; simpl. intros H. rewrite H.
  rewrite firstn_app, Nat.sub_diag, firstn_all. simpl. rewrite app_nil_r.
  split; [reflexivity |].
  rewrite Nat.add_comm, <- skipn_skipn, H, skipn_app, Nat.sub_diag, skipn_all. reflexivity.
Qed.

Lemma length_bytes_of (w : nat) (z : Z) : length (bytes_of w z) = w.
Proof. revert z. induction w as [| w IH]; intros z; simpl; [reflexivity | by rewrite IH]. Qed.

Lemma val_byte_of (z : Z) : val_byte (byte_of z) = z mod 256.
Proof.
  unfold val_byte, byte_of.
  assert (Hm : 0 <= z mod 256 < 256) by (apply Z.mod_pos_bound; lia).
  rewrite N_ascii_embedding; [apply Z2N.id; lia |].
  apply N2Z.inj_lt. rewrite Z2N.id by lia. simpl. lia.
Qed.

Lemma val_of_bytes_of (w : nat) (z : Z) : val_of (bytes_of w z) = z mod 256 ^ Z.of_nat w.
Proof.
  revert z. induction w as [| w IH]; intros z; simpl.
  - rewrite Z.mod_1_r. reflexivity.
  - rewrite val_byte_of, IH.
    assert (HM : 0 < 256 ^ Z.of_nat w) by (apply Z.pow_pos_nonneg; lia).
    rewrite Nat2Z.inj_succ, Z.pow_succ_r by lia.
    apply Z.mod_unique with (q := z / 256 / 256 ^ Z.of_nat w).
    + left.
      pose proof (Z.mod_pos_bound z 256 ltac:(lia)).
      pose proof (Z.mod_pos_bound (z / 256) (256 ^ Z.of_nat w) HM). nia.
    + pose proof (Z.div_mod z 256 ltac:(lia)).
      pose proof (Z.div_mod (z / 256) (256 ^ Z.of_nat w) ltac:(lia)). nia.
Qed.

Lemma rd_int4_exact (s : stream) (z : Z) (r : list ascii) :
  - 2^31 <= z < 2^31 -> rest s = bytes_of 4 z ++ r ->
  fst (rd_int 4 0 s) = z /\ rest (snd (rd_int 4 0 s)) = r.
Proof.
  intros Hz H. unfold rd_int.
  destruct (st_read_exact s _ _ H) as [H1 H2].
  rewrite length_bytes_of in H1, H2.
  destruct (st_read 4 s) as [bs s'] eqn:E. cbn [fst snd] in *. subst bs.
  split; [| exact H2].
  replace (skipn (length (bytes_of 4 z)) (bytes_of 4 0)) with (@nil ascii)
    by (rewrite length_bytes_of; reflexivity).
  rewrite app_nil_r, val_of_bytes_of.
  unfold to_int32. replace (256 ^ Z.of_nat 4) with 4294967296 by reflexivity.
  destruct (Z_lt_le_dec z 0).
  - rewrite <- (Z.mod_unique z 4294967296 (-1) (z + 4294967296)) by lia.
    destruct (Z.ltb_spec (z + 4294967296) (2^31)); lia.
  - rewrite Z.mod_small by lia. destruct (Z.ltb_spec z (2^31)); lia.
Qed.

Lemma rd_int1_exact (s : stream) (z : Z) (r : list ascii) :
  0 <= z < 256 -> rest s = bytes_of 1 z ++ r ->
  fst (rd_int 1 0 s) = z /\ rest (snd (rd_int 1 0 s)) = r.
Proof.
  intros Hz H. unfold rd_int.
  destruct (st_read_exact s _ _ H) as [H1 H2].
  rewrite length_bytes_of in H1, H2.
  destruct (st_read 1 s) as [bs s'] eqn:E. cbn [fst snd] in *. subst bs.
  split; [| exact H2].
  change (bytes_of 1 z ++ skipn (length (bytes_of 1 z)) (bytes_of 4 0))
    with (byte_of z :: bytes_of 3 0).
  cbn [val_of]. rewrite val_byte_of, val_of_bytes_of, Zmod_0_l, Z.mod_small by lia.
  unfold to_int32. destruct (Z.ltb_spec (z + 256 * 0) (2^31)); lia.
Qed.

Lemma st_read_ok (s : stream) (n : nat) (bs r : list ascii) :
  rest s = bs ++ r -> length bs = n ->
  exists s', st_read n s = (bs, s') /\ rest s' = r.
Proof.
  intros H <-. destruct (st_read_exact s _ _ H) as [H1 H2].
  destruct (st_read (length bs) s) as [a s'] eqn:E. cbn [fst snd] in *. subst a.
  exists s'. split; [reflexivity | exact H2].
Qed.

Lemma rd_int4_ok (s : stream) (z : Z) (r : list ascii) :
  - 2^31 <= z < 2^31 -> rest s = bytes_of 4 z ++ r ->
  exists s', rd_int 4 0 s = (z, s') /\ rest s' = r.
Proof.
  intros Hz H. destruct (rd_int4_exact s z r Hz H) as [H1 H2].
  destruct (rd_int 4 0 s) as [a s'] eqn:E. cbn [fst snd] in *. subst a.
  exists s'. split; [reflexivity | exact H2].
Qed.

Lemma rd_int1_ok (s : stream) (z : Z) (r : list ascii) :
  0 <= z < 256 -> rest s = bytes_of 1 z ++ r ->
  exists s', rd_int 1 0 s = (z, s') /\ rest s' = r.
Proof.
  intros Hz H. destruct (rd_int1_exact s z r Hz H) as [H1 H2].
  destruct (rd_int 1 0 s) as [a s'] eqn:E. cbn [fst snd] in *. subst a.
  exists s'. split; [reflexivity | exact H2].
Qed.

Lemma length_list_ascii (x : string) : length (list_ascii_of_string x) = String.length x.
Proof. induction x as [| c x IH]; simpl; [reflexivity | by rewrite IH]. Qed.

Lemma cstr_nul_free (x : string) : nul_free x = true -> cstr x = x.
Proof.
  unfold nul_free. induction x as [| c x IH]; simpl; [reflexivity |].
  intros H. apply andb_true_iff in H as [Hc Hx].
  destruct (Ascii.eqb c "000"%char); [discriminate |]. by rewrite IH.
Qed.

Lemma overwrite_full (c : ascii) (bs : list ascii) :
  overwrite (repeat c (length bs)) 0 bs = bs.
Proof.
  unfold overwrite. simpl. rewrite skipn_all2; [apply app_nil_r |].
  rewrite repeat_length. lia.
Qed.

Lemma slen_bound (x : string) : 0 <= slen x.
Proof. unfold slen. lia. Qed.

Lemma attr_read_str_ok (s : stream) (max_size : Z) (x : string) (r : list ascii) :
  1 <= slen x <= max_size -> max_size <= 255 ->
  rest s = write_str x ++ r ->
  exists s', attr_read_str max_size s = (slen x, x, s') /\ rest s' = r.
Proof.
  intros Hx Hm H. unfold write_str in H. rewrite <- app_assoc in H.
  destruct (rd_int1_ok s (slen x) _ ltac:(lia) H) as (s1 & E1 & H1).
  unfold attr_read_str. rewrite E1.
  assert (C : (slen x <? 1) || (max_size <? slen x) = false)
    by (apply orb_false_iff; split; apply Z.ltb_ge; lia).
  rewrite C.
  destruct (st_read_ok s1 (Z.to_nat (slen x)) _ _ H1) as (s2 & E2 & H2).
  { rewrite length_list_ascii. unfold slen. lia. }
  rewrite E2. exists s2. split; [| exact H2].
  replace (Z.to_nat (slen x)) with (length (list_ascii_of_string x))
    by (rewrite length_list_ascii; unfold slen; lia).
  rewrite overwrite_full, string_of_list_ascii_of_string. reflexivity.
Qed.

(** [Property::set] on an entry the setters accept. *)
Lemma prop_set_ok (n : string) (v : var) (p : Property) :
  name_okb n = true -> value_okb v = true -> prop_set (Some n) v p = <[n := v]> p.
Proof.
  unfold name_okb. intros Hn Hv. apply andb_true_iff in Hn as [Hn _].
  apply andb_true_iff in Hn as [Hn1 Hn2].
  apply Nat.leb_le in Hn1, Hn2. unfold prop_set; simpl.
  assert (E1 : (String.length n <? 1)%nat = false) by (apply Nat.ltb_ge; lia).
  assert (E2 : (64 <? String.length n)%nat = false) by (apply Nat.ltb_ge; lia).
  rewrite E1, E2. simpl.
  destruct v as [b | z | bits | x]; try reflexivity.
  unfold value_okb in Hv. apply andb_true_iff in Hv as [Hv1 Hv2]. apply Nat.leb_le in Hv1, Hv2.
  assert (E3 : (String.length x <? 1)%nat = false) by (apply Nat.ltb_ge; lia).
  assert (E4 : (255 <? String.length x)%nat = false) by (apply Nat.ltb_ge; lia).
  rewrite E3, E4. reflexivity.
Qed.

Lemma prop_read_ok (s : stream) (n : string) (v : var) (o : Property) (r : list ascii) :
  name_okb n && value_okb v = true ->
  rest s = write_entry (n, v) ++ r ->
  exists s', prop_read s o = (true, <[n := v]> o, s') /\ rest s' = r.
Proof.
  intros Hok H. apply andb_true_iff in Hok as [Hn Hv].
  pose proof Hn as Hn'. unfold name_okb in Hn'.
  apply andb_true_iff in Hn' as [Hn' Hnul]. apply andb_true_iff in Hn' as [Hn1 Hn2].
  apply Nat.leb_le in Hn1, Hn2.
  unfold write_entry in H.
  rewrite bool_decide_eq_false_2 in H by (destruct v; discriminate).
  assert (C : (String.length n =? 0)%nat || (64 <? String.length n)%nat = false).
  { apply orb_false_iff; split; [apply Nat.eqb_neq | apply Nat.ltb_ge]; lia. }
  rewrite C in H. rewrite <- !app_assoc in H.
  assert (Hty : 0 <= type_code (var_type v) < 256) by (destruct v; simpl; lia).
  destruct (rd_int1_ok s _ _ Hty H) as (s1 & E1 & H1).
  destruct (attr_read_str_ok s1 64 n _ ltac:(unfold slen; lia) ltac:(lia) H1)
    as (s2 & E2 & H2).
  assert (Cty : (type_code (var_type v) <? 1) || (4 <? type_code (var_type v)) = false)
    by (destruct v; reflexivity).
  assert (Cn : (slen n <? 0) = false) by (apply Z.ltb_ge; apply slen_bound).
  unfold prop_read. rewrite E1. cbv beta iota zeta. rewrite Cty, E2.
  cbv beta iota zeta. rewrite Cn, (cstr_nul_free n Hnul).
  destruct v as [b | z | bits | x]; cbv beta iota zeta delta [var_type type_code Z.eqb].
  - destruct (st_read_ok s2 1 [if b then "001"%char else "000"%char] r H2 eq_refl)
      as (s3 & E3 & H3).
    unfold rd_bool. rewrite E3. exists s3. split; [| exact H3].
    rewrite prop_set_ok by (try exact Hn; destruct b; reflexivity).
    destruct b; reflexivity.
  - unfold value_okb in Hv. apply andb_true_iff in Hv as [Hz1 Hz2]. apply Z.leb_le in Hz1. apply Z.ltb_lt in Hz2.
    destruct (rd_int4_ok s2 z r ltac:(lia) H2) as (s3 & E3 & H3).
    rewrite E3. exists s3. split; [| exact H3].
    rewrite prop_set_ok by (try exact Hn; unfold value_okb; apply andb_true_iff; split; lia).
    reflexivity.
  - unfold value_okb in Hv. apply andb_true_iff in Hv as [Hb1 Hb2]. apply Z.leb_le in Hb1. apply Z.ltb_lt in Hb2.
    destruct (st_read_ok s2 4 (bytes_of 4 bits) r H2 (length_bytes_of 4 bits))
      as (s3 & E3 & H3).
    rewrite E3. exists s3. split; [| exact H3].
    replace (skipn (length (bytes_of 4 bits)) (bytes_of 4 0)) with (@nil ascii)
      by (rewrite length_bytes_of; reflexivity).
    rewrite app_nil_r, val_of_bytes_of.
    replace (256 ^ Z.of_nat 4) with 4294967296 by reflexivity.
    rewrite Z.mod_small by lia.
    rewrite prop_set_ok by (try exact Hn; unfold value_okb; apply andb_true_iff; split; lia).
    reflexivity.
  - unfold value_okb in Hv. apply andb_true_iff in Hv as [Hx1 Hx2]. apply Nat.leb_le in Hx1, Hx2.
    destruct (attr_read_str_ok s2 255 x r ltac:(unfold slen; lia) ltac:(lia) H2)
      as (s3 & E3 & H3).
    rewrite E3.
    assert (Cx : (slen x mod 256 <? 0) = false)
      by (apply Z.ltb_ge; apply Z.mod_pos_bound; lia).
    rewrite Cx. exists s3. split; [| exact H3].
    rewrite prop_set_ok by (try exact Hn; unfold value_okb; apply andb_true_iff; split;
                            apply Nat.leb_le; lia).
    reflexivity.
Qed.

Lemma read_attr_loop_ok (l : list (string * var)) (p : Property) (s : stream) (r : list ascii) :
  Forall (fun kv => name_okb kv.1 && value_okb kv.2 = true) l ->
  rest s = concat (map write_entry l) ++ r ->
  exists s', read_attr_loop (length l) p s =
               (true, foldl (fun acc kv => <[kv.1 := kv.2]> acc) p l, s') /\ rest s' = r.
Proof.
  revert p s. induction l as [| [n v] l IH]; intros p s Hok H.
  - exists s. split; [reflexivity | exact H].
  - inversion Hok as [| ? ? Hkv Hl]; subst. simpl in H. rewrite <- app_assoc in H.
    destruct (prop_read_ok s n v p _ Hkv H) as (s1 & E1 & H1).
    destruct (IH (<[n := v]> p) s1 Hl H1) as (s2 & E2 & H2).
    exists s2. simpl. rewrite E1. split; [exact E2 | exact H2].
Qed.

Section Entries.
Context {A : Type}.

Lemma ins_entry_perm (kv : string * A) (l : list (string * A)) : ins_entry kv l ≡ₚ kv :: l.
Proof.
  induction l as [| kv' l IH]; simpl; [reflexivity |].
  destruct (str_ltb kv.1 kv'.1); [reflexivity |].
  rewrite IH. apply perm_swap.
Qed.

Lemma entries_perm (m : gmap string A) : entries m ≡ₚ map_to_list m.
Proof.
  unfold entries. induction (map_to_list m) as [| kv l IH]; simpl; [reflexivity |].
  rewrite ins_entry_perm, IH. reflexivity.
Qed.

Lemma NoDup_entries (m : gmap string A) : NoDup ((entries m).*1).
Proof. rewrite (entries_perm m). apply NoDup_fst_map_to_list. Qed.

Lemma elem_of_entries (m : gmap string A) (kv : string * A) :
  kv ∈ entries m <-> m !! kv.1 = Some kv.2.
Proof. rewrite (entries_perm m). destruct kv. apply elem_of_map_to_list. Qed.

Lemma length_entries (m : gmap string A) : length (entries m) = size m.
Proof. rewrite (entries_perm m). apply length_map_to_list. Qed.

Lemma foldl_insert_union (l : list (string * A)) (m : gmap string A) :
  NoDup l.*1 ->
  foldl (fun acc kv => <[kv.1 := kv.2]> acc) m l = list_to_map l ∪ m.
Proof.
  revert m. induction l as [| [k v] l IH]; intros m Hnd; simpl.
  - by rewrite (left_id_L ∅ (∪)).
  - inversion Hnd as [| ? ? Hk Hl]; subst. rewrite IH by exact Hl.
    change (list_to_map ((k, v) :: l) : gmap string A) with (<[k := v]> (list_to_map l : gmap string A)).
    rewrite <- insert_union_l, insert_union_r; [reflexivity |].
    by apply not_elem_of_list_to_map_1.
Qed.

Lemma foldl_entries (m : gmap string A) :
  foldl (fun acc kv => <[kv.1 := kv.2]> acc) ∅ (entries m) = m.
Proof.
  rewrite foldl_insert_union by apply NoDup_entries.
  rewrite (right_id_L ∅ (∪)).
  rewrite <- (list_to_map_to_list m) at 2.
  apply list_to_map_proper; [apply NoDup_entries | apply entries_perm].
Qed.

Lemma Forall_entries (P : string * A -> Prop) (m : gmap string A) :
  (forall k v, m !! k = Some v -> P (k, v)) -> Forall P (entries m).
Proof.
  intros HP. apply Forall_forall. intros [k v] Hin.
  apply HP. apply (elem_of_entries m (k, v)). exact Hin.
Qed.

End Entries.

Lemma forallb_map_to_list {A} (f : string * A -> bool) (m : gmap string A) (k : string) (v : A) :
  forallb f (map_to_list m) = true -> m !! k = Some v -> f (k, v) = true.
Proof.
  intros Hf Hk. rewrite forallb_forall in Hf. apply Hf.
  apply list_elem_of_In. by apply elem_of_map_to_list.
Qed.

Lemma read_attr_ok (p : Property) (s : stream) (r : list ascii) :
  prop_okb p = true ->
  rest s = write_props p ++ r ->
  exists s', read_attr (Z.of_nat (size p)) s = (true, p, s') /\ rest s' = r.
Proof.
  intros Hp H. unfold prop_okb in Hp. apply andb_true_iff in Hp as [Hp _].
  unfold read_attr. rewrite Nat2Z.id, <- length_entries.
  destruct (read_attr_loop_ok (entries p) ∅ s r) as (s' & E & H').
  - apply Forall_entries. intros k v Hk. exact (forallb_map_to_list _ _ _ _ Hp Hk).
  - exact H.
  - rewrite foldl_entries in E. exists s'. split; [exact E | exact H'].
Qed.

Lemma read_chunks_done (fuel : nat) (pos remain : Z) (out : list ascii) (s : stream) :
  remain <= 0 -> read_chunks fuel pos remain out s = (out, s).
Proof.
  intros H. destruct fuel as [| f]; simpl; [reflexivity |].
  destruct (Z.ltb_spec 0 remain); [lia | reflexivity].
Qed.

Lemma read_chunks_ok (fuel p q : nat) (out : list ascii) (s : stream) (bs r : list ascii) :
  length out = (p + q)%nat -> length bs = q -> (q <= 1024 * fuel)%nat ->
  rest s = bs ++ r ->
  exists s', read_chunks fuel (Z.of_nat p) (Z.of_nat q) out s = (firstn p out ++ bs, s') /\
             rest s' = r.
Proof.
  revert p q out s bs. induction fuel as [| f IH]; intros p q out s bs Hout Hbs Hq H.
  - assert (q = 0%nat) by lia. subst q. destruct bs; [| discriminate].
    exists s. simpl. rewrite firstn_all2 by lia. rewrite app_nil_r. split; [reflexivity | exact H].
  - cbn [read_chunks]. destruct (Z.ltb_spec 0 (Z.of_nat q)) as [Hpos | Hz].
    + destruct (Z.ltb_spec 1024 (Z.of_nat q)) as [Hbig | Hsmall].
      * (* a full chunk of 1024 bytes, then the rest *)
        rewrite <- (firstn_skipn 1024 bs) in H. rewrite <- app_assoc in H.
        destruct (st_read_ok s (Z.to_nat 1024) (firstn 1024 bs) _ H)
          as (s1 & E1 & H1); [rewrite length_firstn; lia |].
        rewrite E1.
        set (out' := overwrite out (Z.to_nat (Z.of_nat p)) (firstn 1024 bs)).
        assert (Hlen' : length out' = (p + 1024 + (q - 1024))%nat).
        { unfold out', overwrite. rewrite Nat2Z.id, !length_app, length_firstn, length_skipn,
            length_firstn. lia. }
        destruct (IH (p + 1024)%nat (q - 1024)%nat out' s1 (skipn 1024 bs)) as (s2 & E2 & H2);
          [exact Hlen' | rewrite length_skipn; lia | lia | exact H1 |].
        replace (Z.of_nat p + 1024) with (Z.of_nat (p + 1024)) by lia.
        replace (Z.of_nat q - 1024) with (Z.of_nat (q - 1024)) by lia.
        rewrite E2. exists s2. split; [| exact H2].
        f_equal. unfold out', overwrite. rewrite Nat2Z.id.
        rewrite firstn_app, length_firstn, Nat.min_l by lia.
        rewrite firstn_firstn, Nat.min_r by lia.
        replace (p + 1024 - p)%nat with 1024%nat by lia.
        rewrite firstn_app, length_firstn, Nat.min_l by lia.
        rewrite Nat.sub_diag, firstn_O, app_nil_r, firstn_firstn, Nat.min_id.
        rewrite <- app_assoc, firstn_skipn. reflexivity.
      * (* the last chunk *)
        destruct (st_read_ok s (Z.to_nat (Z.of_nat q)) bs r H) as (s1 & E1 & H1); [lia |].
        rewrite E1, read_chunks_done by lia. exists s1. split; [| exact H1].
        f_equal. unfold overwrite. rewrite Nat2Z.id.
        rewrite skipn_all2 by lia. rewrite app_nil_r. reflexivity.
    + assert (q = 0%nat) by lia. subst q. destruct bs; [| discriminate].
      exists s. rewrite firstn_all2 by lia. rewrite app_nil_r. split; [reflexivity | exact H].
Qed.

Lemma length_resize (l : list ascii) (n : nat) : length (resize l n) = n.
Proof. unfold resize. rewrite length_app, repeat_length, length_firstn. lia. Qed.

Lemma item_read_str_ok (out x : string) (s : stream) (r : list ascii) :
  1 <= slen x <= L10KB ->
  rest s = bytes_of 4 (slen x) ++ list_ascii_of_string x ++ r ->
  exists s', item_read_str out s = (slen x, x, s') /\ rest s' = r.
Proof.
  intros Hx H. unfold L10KB in Hx.
  destruct (rd_int4_ok s (slen x) _ ltac:(lia) H) as (s1 & E1 & H1).
  unfold item_read_str. rewrite E1.
  assert (C : (slen x <? 1) || (L10KB <? slen x) = false)
    by (unfold L10KB; apply orb_false_iff; split; apply Z.ltb_ge; lia).
  rewrite C.
  assert (Hn : Z.to_nat (slen x) = String.length x) by (unfold slen; lia).
  destruct (read_chunks_ok (Z.to_nat (slen x)) 0 (String.length x)
              (resize (list_ascii_of_string out) (Z.to_nat (slen x))) s1
              (list_ascii_of_string x) r) as (s2 & E2 & H2).
  - rewrite length_resize. lia.
  - apply length_list_ascii.
  - lia.
  - exact H1.
  - replace (Z.of_nat 0) with 0 in E2 by reflexivity.
    replace (Z.of_nat (String.length x)) with (slen x) in E2 by reflexivity.
    rewrite E2. exists s2. split; [| exact H2].
    simpl. rewrite string_of_list_ascii_of_string. reflexivity.
Qed.

Lemma item_read_str_empty (out : string) (s : stream) (r : list ascii) :
  rest s = bytes_of 4 0 ++ r ->
  exists s', item_read_str out s = (0, out, s') /\ rest s' = r.
Proof.
  intros H. destruct (rd_int4_ok s 0 r ltac:(lia) H) as (s1 & E1 & H1).
  unfold item_read_str. rewrite E1. exists s1. split; [reflexivity | exact H1].
Qed.

(** The translation read back for an item: [read_str] into the fresh
    entry [map[src]]. *)
Lemma item_read_trs_ok (v : string) (s : stream) (r : list ascii) :
  slen v <= L10KB ->
  rest s = bytes_of 4 (slen v) ++ list_ascii_of_string v ++ r ->
  snd (fst (item_read_str "" s)) = v /\ rest (snd (item_read_str "" s)) = r.
Proof.
  intros Hv H. destruct v as [| c v'].
  - destruct (item_read_str_empty "" s r H) as (s' & E & H').
    rewrite E. split; [reflexivity | exact H'].
  - destruct (item_read_str_ok "" (String c v') s r) as (s' & E & H');
      [unfold slen in *; simpl in *; lia | exact H |].
    rewrite E. split; [reflexivity | exact H'].
Qed.

Lemma read_items_ok (l : list (string * string)) (m : gmap string string) (src : string)
    (s : stream) (r : list ascii) :
  Forall (fun kv => item_okb kv = true) l -> NoDup l.*1 ->
  Forall (fun kv => m !! kv.1 = None) l ->
  rest s = concat (map write_item l) ++ r ->
  exists src' s', read_items (length l) m src s =
                    (false, foldl (fun acc kv => <[kv.1 := kv.2]> acc) m l, src', s') /\
                  rest s' = r.
Proof.
  revert m src s. induction l as [| [k v] l IH]; intros m src s Hok Hnd Hfresh H.
  - exists src, s. split; [reflexivity | exact H].
  - inversion Hok as [| ? ? Hkv Hl]; subst. inversion Hnd as [| ? ? Hk Hnd']; subst.
    inversion Hfresh as [| ? ? Hm Hfresh']; subst. simpl in Hm.
    unfold item_okb in Hkv; simpl in Hkv.
    repeat (apply andb_true_iff in Hkv as [Hkv ?]).
    apply Z.leb_le in Hkv. repeat match goal with H : (_ <=? _) = true |- _ => apply Z.leb_le in H end.
    simpl in H. unfold write_item in H; simpl in H. rewrite <- !app_assoc in H.
    destruct (item_read_str_ok src k s _ ltac:(lia) H) as (s1 & E1 & Hs1).
    destruct (item_read_trs_ok v s1 (concat (map write_item l) ++ r) ltac:(lia) Hs1)
      as (Ev & Hs2).
    change (length ((k, v) :: l)) with (S (length l)). cbn [read_items foldl]. rewrite E1.
    assert (C : (slen k <? 1) = false) by (apply Z.ltb_ge; lia). rewrite C.
    rewrite Hm.
    destruct (item_read_str "" s1) as [[z trs] s2] eqn:E2. simpl in Ev, Hs2. subst trs.
    destruct (IH (<[k := v]> m) k s2) as (src' & s3 & E3 & Hs3).
    + exact Hl.
    + exact Hnd'.
    + apply Forall_forall. intros [k' v'] Hin. simpl.
      rewrite lookup_insert_ne.
      * exact (proj1 (Forall_forall _ _) Hfresh' (k', v') Hin).
      * intros ->. apply Hk. apply list_elem_of_fmap. exists (k', v'). split; [reflexivity | exact Hin].
    + exact Hs2.
    + exists src', s3. split; [exact E3 | exact Hs3].
Qed.

Lemma group_name_read_ok (name0 n : string) (s : stream) (r : list ascii) :
  rest s = list_ascii_of_string n ++ r ->
  exists s', group_name_read (slen n) name0 s = (n, s') /\ rest s' = r.
Proof.
  intros H. unfold group_name_read. destruct n as [| c n'].
  - exists s. split; [reflexivity | exact H].
  - assert (C : (slen (String c n') =? 0) = false) by (unfold slen; simpl; lia). rewrite C.
    destruct (st_read_ok s (Z.to_nat (slen (String c n'))) _ r H) as (s1 & E1 & H1);
      [rewrite length_list_ascii; unfold slen; lia |].
    rewrite E1. exists s1. split; [| exact H1]. f_equal.
    unfold overwrite. simpl firstn. rewrite skipn_all2.
    + rewrite app_nil_r. apply string_of_list_ascii_of_string.
    + rewrite length_resize, length_list_ascii. unfold slen. lia.
Qed.


Lemma load_groups_step (f : nat) (err : bool) (name0 src0 : string) (t0 t : Text)
    (n : string) (l : loc) (s : stream) (r : list ascii) :
  (String.length n <= 64)%nat -> group_okb (deref t l) = true ->
  rest s = write_group t (n, l) ++ r ->
  exists src' s', rest s' = r /\
    load_groups (S f) err name0 src0 t0 s =
    load_groups f err n src' (merge_group n (reloaded (deref t l)) t0) s'.
Proof.
  intros Hn Hg H. unfold write_group in H. cbv beta iota zeta in H.
  rewrite <- !app_assoc in H.
  set (g := deref t l) in *.
  unfold group_okb in Hg. apply andb_true_iff in Hg as [Hg Hsz].
  apply andb_true_iff in Hg as [Hp Hitems]. apply Z.ltb_lt in Hsz.
  assert (Hpsz : Z.of_nat (size (g_prop g)) < 2^31)
    by (unfold prop_okb in Hp; apply andb_true_iff in Hp as [_ Hp]; apply Z.ltb_lt in Hp; exact Hp).
  destruct (rd_int1_ok s (slen n) _ ltac:(unfold slen; lia) H) as (s1 & E1 & H1).
  destruct (group_name_read_ok name0 n s1 _ H1) as (s2 & E2 & H2).
  assert (Hb1 : - 2^31 <= Z.of_nat (size (g_prop g)) < 2^31) by lia.
  assert (Hb2 : - 2^31 <= Z.of_nat (size (g_map g)) < 2^31) by lia.
  destruct (rd_int4_ok s2 (Z.of_nat (size (g_prop g))) _ Hb1 H2) as (s3 & E3 & H3).
  destruct (rd_int4_ok s3 (Z.of_nat (size (g_map g))) _ Hb2 H3) as (s4 & E4 & H4).
  destruct (read_attr_ok (g_prop g) s4 _ Hp H4) as (s5 & E5 & H5).
  destruct (read_items_ok (entries (g_map g)) ∅ src0 s5 r) as (src' & s6 & E6 & H6).
  - apply Forall_entries. intros k v Hk.
    exact (forallb_map_to_list _ _ k v Hitems Hk).
  - apply NoDup_entries.
  - apply Forall_entries. intros k v _. reflexivity.
  - exact H5.
  - exists src', s6. split; [exact H6 |].
    cbn [load_groups]. rewrite E1.
    assert (C : (slen n <? 0) || (64 <? slen n) = false)
      by (unfold slen; apply orb_false_iff; split; apply Z.ltb_ge; lia).
    cbv beta iota zeta. rewrite C, E2, E3, E4, E5.
    cbv beta iota zeta delta [negb].
    rewrite Nat2Z.id, <- (length_entries (g_map g)), E6.
    cbv beta iota. rewrite foldl_entries, orb_false_r. reflexivity.
Qed.

Lemma load_groups_ok (t : Text) (L : list (string * loc)) (err : bool) (name src : string)
    (t0 : Text) (s : stream) (r : list ascii) :
  Forall (fun nl => (String.length nl.1 <= 64)%nat /\ group_okb (deref t nl.2) = true) L ->
  rest s = concat (map (write_group t) L) ++ r ->
  load_groups (length L) err name src t0 s =
  GDone err (foldl (fun acc nl => merge_group nl.1 (reloaded (deref t nl.2)) acc) t0 L).
Proof.
  revert name src t0 s. induction L as [| [n l] L IH]; intros name src t0 s HL H.
  - reflexivity.
  - inversion HL as [| ? ? [Hn Hg] HL']; subst. simpl in H. rewrite <- app_assoc in H.
    destruct (load_groups_step (length L) err name src t0 t n l s _ Hn Hg H)
      as (src' & s' & Hs' & E).
    change (length ((n, l) :: L)) with (S (length L)). rewrite E.
    apply IH; [exact HL' | exact Hs'].
Qed.



Lemma merge_group_spec (u : Text) (n : string) (g : Group) :
  wf u ->
  wf (merge_group n g u) /\ t_prop (merge_group n g u) = t_prop u /\
  forall n', text_group (merge_group n g u) n' =
             if String.eqb n' n
             then Some (match text_group u n with None => g | Some g0 => merge_into g g0 end)
             else text_group u n'.
Proof.
  intros [Hlt Hinj]. unfold wf, merge_group.
  destruct (t_map u !! n) as [l |] eqn:En.
  - unfold text_update_group, set_map. cbn [t_prop t_map t_heap t_next]. split; [split |]; [| | split; [reflexivity |]].
    + intros n' l' Hl'. cbn [t_prop t_map t_heap t_next] in Hl'. destruct (Hlt n' l' Hl') as [Hl1 Hl2]. split; [exact Hl1 |].
      destruct (decide (l' = l)) as [-> |]; [rewrite lookup_insert_eq; eauto |].
      rewrite lookup_insert_ne by congruence. exact Hl2.
    + exact Hinj.
    + intros n'. unfold text_group; cbn [t_prop t_map t_heap t_next]. rewrite En.
      destruct (Hlt n l En) as [_ [g0 Hg0]]. rewrite Hg0.
      destruct (String.eqb_spec n' n) as [-> | Hne].
      * rewrite En, lookup_insert_eq. unfold deref. rewrite Hg0. reflexivity.
      * destruct (t_map u !! n') as [l' |] eqn:En'; [| reflexivity].
        rewrite lookup_insert_ne; [reflexivity |].
        intros ->. apply Hne. exact (Hinj n' n l' En' En).
  - cbn [t_prop t_map t_heap t_next]. split; [split |]; [| | split; [reflexivity |]].
    + intros n' l' Hl'. cbn [t_prop t_map t_heap t_next] in Hl'.
      destruct (String.eq_dec n' n) as [-> | Hne].
      * rewrite lookup_insert_eq in Hl'. injection Hl' as <-.
        split; [lia | rewrite lookup_insert_eq; eauto].
      * rewrite lookup_insert_ne in Hl' by congruence.
        destruct (Hlt n' l' Hl') as [Hl1 Hl2]. split; [lia |].
        rewrite lookup_insert_ne by lia. exact Hl2.
    + intros n1 n2 l' H1 H2. cbn [t_prop t_map t_heap t_next] in H1, H2.
      destruct (String.eq_dec n1 n) as [-> | Hne1], (String.eq_dec n2 n) as [-> | Hne2];
        [reflexivity | | |].
      * rewrite lookup_insert_eq in H1. rewrite lookup_insert_ne in H2 by congruence.
        injection H1 as <-. destruct (Hlt n2 _ H2) as [Hl _]. lia.
      * rewrite lookup_insert_eq in H2. rewrite lookup_insert_ne in H1 by congruence.
        injection H2 as <-. destruct (Hlt n1 _ H1) as [Hl _]. lia.
      * rewrite lookup_insert_ne in H1, H2 by congruence. exact (Hinj n1 n2 l' H1 H2).
    + intros n'. unfold text_group; cbn [t_prop t_map t_heap t_next]. rewrite En.
      destruct (String.eqb_spec n' n) as [-> | Hne].
      * rewrite !lookup_insert_eq. reflexivity.
      * rewrite lookup_insert_ne by congruence.
        destruct (t_map u !! n') as [l' |] eqn:En'; [| reflexivity].
        destruct (Hlt n' l' En') as [Hl _]. rewrite lookup_insert_ne by lia. reflexivity.
Qed.

Lemma merge_fold_spec (G : loc -> Group) (L : list (string * loc)) (u : Text) :
  wf u -> NoDup L.*1 ->
  let u' := foldl (fun acc nl => merge_group nl.1 (G nl.2) acc) u L in
  wf u' /\ t_prop u' = t_prop u /\
  forall n', text_group u' n' =
             match (list_to_map L : gmap string loc) !! n' with
             | None => text_group u n'
             | Some l => Some (match text_group u n' with
                               | None => G l | Some g0 => merge_into (G l) g0 end)
             end.
Proof.
  revert u. induction L as [| [n l] L IH]; intros u Hwf Hnd; simpl.
  - split; [exact Hwf | split; [reflexivity |]]. intros n'. rewrite lookup_empty. reflexivity.
  - inversion Hnd as [| ? ? Hn Hnd']; subst.
    destruct (merge_group_spec u n (G l) Hwf) as (Hwf1 & Hp1 & Hg1).
    destruct (IH _ Hwf1 Hnd') as (Hwf2 & Hp2 & Hg2).
    split; [exact Hwf2 | split; [congruence |]].
    intros n'. rewrite Hg2.
    destruct (String.eq_dec n' n) as [-> | Hne].
    + rewrite lookup_insert_eq.
      rewrite (not_elem_of_list_to_map_1 L n) by exact Hn.
      rewrite Hg1, String.eqb_refl. reflexivity.
    + rewrite lookup_insert_ne by congruence.
      rewrite !Hg1. destruct (String.eqb_spec n' n) as [| _]; [contradiction |].
      reflexivity.
Qed.

Lemma list_to_map_entries {A} (m : gmap string A) : list_to_map (entries m) = m.
Proof.
  rewrite <- (list_to_map_to_list m) at 2.
  apply list_to_map_proper; [apply NoDup_entries | apply entries_perm].
Qed.

Lemma group_set_valid (k v : string) (g : Group) :
  item_okb (k, v) = true ->
  snd (group_set (Some (cstr k)) (Some (cstr v)) g) =
  mkGroup (g_prop g) (<[k := v]> (g_map g)) (g_priority g).
Proof.
  unfold item_okb; simpl. intros H.
  repeat (apply andb_true_iff in H as [H ?]).
  rewrite !cstr_nul_free by assumption.
  unfold group_set.
  repeat match goal with Hb : (_ <=? _) = true |- _ => apply Z.leb_le in Hb end.
  assert (C : (slen k <? 1) || (L10KB <? slen k) || (L10KB <? slen v) = false)
    by (apply orb_false_iff; split; [apply orb_false_iff; split |]; apply Z.ltb_ge; lia).
  rewrite C. reflexivity.
Qed.

Lemma merge_into_foldl (l : list (string * string)) (g0 : Group) :
  Forall (fun kv => item_okb kv = true) l ->
  foldl (fun acc kv => snd (group_set (Some (cstr kv.1)) (Some (cstr kv.2)) acc)) g0 l =
  mkGroup (g_prop g0) (foldl (fun acc kv => <[kv.1 := kv.2]> acc) (g_map g0) l) (g_priority g0).
Proof.
  revert g0. induction l as [| [k v] l IH]; intros g0 Hl; cbn [foldl fst snd].
  - destruct g0; reflexivity.
  - inversion Hl as [| ? ? Hkv Hl']; subst.
    rewrite (group_set_valid k v g0 Hkv), IH by exact Hl'. reflexivity.
Qed.


Lemma text_group_update_sorted (u : Text) (n : string) :
  text_group (update_sorted u) n = text_group u n.
Proof. reflexivity. Qed.


Lemma wf_new (P : Property) : wf (set_prop P text_new).
Proof.
  unfold wf, set_prop, text_new. cbn [t_map t_heap t_next]. split.
  - intros n l H. apply lookup_singleton_Some in H as [_ <-].
    split; [lia | rewrite lookup_singleton_eq; eauto].
  - intros n1 n2 l H1 H2. apply lookup_singleton_Some in H1 as [<- _].
    apply lookup_singleton_Some in H2 as [<- _]. reflexivity.
Qed.

(** What [text_okb] gives about the groups. *)
Lemma text_okb_groups (t : Text) (n : string) (l : loc) :
  text_okb t = true -> t_map t !! n = Some l ->
  (String.length n <= 64)%nat /\ t_heap t !! l = Some (deref t l) /\
  group_okb (deref t l) = true.
Proof.
  unfold text_okb. intros H Hn. repeat (apply andb_true_iff in H as [H ?]).
  pose proof (forallb_map_to_list _ _ n l ltac:(eassumption) Hn) as Hf.
  simpl in Hf. apply andb_true_iff in Hf as [Hlen Hg]. apply Nat.leb_le in Hlen.
  unfold deref. destruct (t_heap t !! l) as [g |]; [| discriminate].
  split; [exact Hlen | split; [reflexivity | exact Hg]].
Qed.

Lemma text_okb_parts (t : Text) :
  text_okb t = true -> prop_okb (t_prop t) = true /\ Z.of_nat (size (t_map t)) < 2^31.
Proof.
  unfold text_okb. intros H. apply andb_true_iff in H as [H Hs].
  apply andb_true_iff in H as [H _]. apply andb_true_iff in H as [Hp _].
  split; [exact Hp | apply Z.ltb_lt; exact Hs].
Qed.

Lemma text_okb_default (t : Text) : text_okb t = true -> is_Some (t_map t !! "").
Proof.
  unfold text_okb. intros H. repeat (apply andb_true_iff in H as [H ?]).
  eapply bool_decide_eq_true_1. eassumption.
Qed.

Lemma text_empty_groups (t : Text) (n : string) (l : loc) :
  text_empty t = true -> is_Some (t_map t !! "") -> t_map t !! n = Some l ->
  n = "" /\ g_map (deref t l) = ∅.
Proof.
  unfold text_empty. intros He [l0 H0] Hn.
  destruct (Nat.ltb_spec (size (t_map t)) 2) as [Hs |]; [| discriminate].
  pose proof (length_entries (t_map t)) as Hlen.
  assert (Hin : (n, l) ∈ entries (t_map t)) by (apply elem_of_entries; exact Hn).
  assert (Hin0 : ("", l0) ∈ entries (t_map t)) by (apply elem_of_entries; exact H0).
  destruct (entries (t_map t)) as [| [n1 l1] [| e es]] eqn:E.
  - apply elem_of_nil in Hin as [].
  - apply list_elem_of_singleton in Hin, Hin0. injection Hin as -> ->. injection Hin0 as -> ->.
    split; [reflexivity |]. eapply bool_decide_eq_true_1. exact He.
  - simpl in Hlen. lia.
Qed.

Lemma save_body_empty (t : Text) :
  text_empty t = true ->
  save_body t = bytes_of 4 (Z.of_nat (size (t_prop t))) ++ bytes_of 4 0 ++ write_props (t_prop t).
Proof. intros He. unfold save_body. rewrite He. reflexivity. Qed.

Lemma save_body_nonempty (t : Text) :
  text_empty t = false ->
  save_body t = bytes_of 4 (Z.of_nat (size (t_prop t))) ++
                bytes_of 4 (Z.of_nat (size (t_map t))) ++ write_props (t_prop t) ++
                concat (map (write_group t) (entries (t_map t))).
Proof. intros He. unfold save_body. rewrite He. reflexivity. Qed.

Section Lz4.

Variable lz4_compress : list ascii -> list ascii.
Variable lz4_decompress : list ascii -> list ascii.
Hypothesis lz4_roundtrip : forall bs, lz4_decompress (lz4_compress bs) = bs.


Lemma group_okb_items (g : Group) :
  group_okb g = true -> forallb item_okb (map_to_list (g_map g)) = true.
Proof.
  unfold group_okb. intros H. apply andb_true_iff in H as [H _].
  apply andb_true_iff in H as [_ H]. exact H.
Qed.


End Lz4.



End RoundTrip.

(* ------------------------------------------------------------------ *)
(** ** UTF-8 and UTF-16 decoding *)

Module Unicode.

Lemma land_mul_pow2 (x y k : Z) :
  0 <= k -> 0 <= y < 2^k -> Z.land (x * 2^k) y = 0.
Proof.
  intros Hk Hy. apply Z.bits_inj'. intros n Hn. rewrite Z.land_spec, Z.bits_0.
  destruct (Z.lt_ge_cases n k).
  - rewrite Z.mul_pow2_bits_low by lia. reflexivity.
  - rewrite <- (Z.mod_small y (2^k)) by lia. rewrite Z.mod_pow2_bits_high by lia.
    apply andb_false_r.
Qed.

Lemma lor_add (x y k : Z) :
  0 <= k -> 0 <= y < 2^k -> Z.lor (x * 2^k) y = x * 2^k + y.
Proof.
  intros Hk Hy. pose proof (land_mul_pow2 x y k Hk Hy) as H0.
  rewrite Z.add_nocarry_lxor, Z.lxor_lor by exact H0. reflexivity.
Qed.

Lemma lxor_add_cancel (x y k : Z) :
  0 <= k -> 0 <= y < 2^k -> Z.lxor (x * 2^k + y) (x * 2^k) = y.
Proof.
  intros Hk Hy. pose proof (land_mul_pow2 x y k Hk Hy) as H0.
  rewrite Z.add_nocarry_lxor by exact H0.
  rewrite (Z.lxor_comm (x * 2^k) y), Z.lxor_assoc, Z.lxor_nilpotent, Z.lxor_0_r.
  reflexivity.
Qed.

Lemma byte_at_app (pre e post : list Z) (k : nat) :
  (k < length e)%nat ->
  byte_at (pre ++ e ++ post) (Z.of_nat (length pre) + Z.of_nat k) = nth k e 0.
Proof.
  intros Hk. unfold byte_at. rewrite <- Nat2Z.inj_add, Nat2Z.id.
  rewrite app_nth2 by lia. replace (length pre + k - length pre)%nat with k by lia.
  rewrite app_nth1 by exact Hk. reflexivity.
Qed.

(** One iteration of [Text::u8to32] for each kind of lead byte. *)
Lemma u8_step1 (f : nat) (bs : list Z) (sz i c : Z) (out : list Z) :
  i < sz -> byte_at bs i = c -> c < 127 ->
  u8to32_loop (S f) bs sz i out = u8to32_loop f bs sz (i + 1) (out ++ [c]).
Proof.
  intros Hi Hc Hlt. cbn [u8to32_loop]. rewrite (proj2 (Z.ltb_lt _ _) Hi). cbv [negb].
  rewrite Hc, (proj2 (Z.ltb_lt _ _) Hlt). reflexivity.
Qed.

Lemma u8_step2 (f : nat) (bs : list Z) (sz i c b1 : Z) (out : list Z) :
  i < sz -> byte_at bs i = c -> byte_at bs (i + 1) = b1 -> 127 <= c < 224 ->
  i < (sz - 1) mod 2^64 ->
  u8to32_loop (S f) bs sz i out =
  u8to32_loop f bs sz (i + 2) (out ++ [Z.lor (Z.shiftl (Z.lxor c 192) 6) (Z.lxor b1 128)]).
Proof.
  intros Hi Hc Hb1 Hcr Hl. cbn [u8to32_loop]. rewrite (proj2 (Z.ltb_lt _ _) Hi). cbv [negb].
  rewrite Hc, Hb1, (proj2 (Z.ltb_ge c 127)), (proj2 (Z.ltb_lt c 224)), (proj2 (Z.ltb_lt _ _) Hl)
    by lia.
  reflexivity.
Qed.

Lemma u8_step3 (f : nat) (bs : list Z) (sz i c b1 b2 : Z) (out : list Z) :
  i < sz -> byte_at bs i = c -> byte_at bs (i + 1) = b1 -> byte_at bs (i + 2) = b2 ->
  224 <= c < 240 -> i < (sz - 2) mod 2^64 ->
  u8to32_loop (S f) bs sz i out =
  u8to32_loop f bs sz (i + 3)
    (out ++ [Z.lor (Z.lor (Z.shiftl (Z.lxor c 224) 12) (Z.shiftl (Z.lxor b1 128) 6))
                   (Z.lxor b2 128)]).
Proof.
  intros Hi Hc Hb1 Hb2 Hcr Hl. cbn [u8to32_loop]. rewrite (proj2 (Z.ltb_lt _ _) Hi). cbv [negb].
  rewrite Hc, Hb1, Hb2, (proj2 (Z.ltb_ge c 127)), (proj2 (Z.ltb_ge c 224)),
    (proj2 (Z.ltb_lt c 240)), (proj2 (Z.ltb_lt _ _) Hl) by lia.
  reflexivity.
Qed.

Lemma u8_step4 (f : nat) (bs : list Z) (sz i c b1 b2 b3 : Z) (out : list Z) :
  i < sz -> byte_at bs i = c -> byte_at bs (i + 1) = b1 -> byte_at bs (i + 2) = b2 ->
  byte_at bs (i + 3) = b3 -> 240 <= c -> i < (sz - 3) mod 2^64 ->
  u8to32_loop (S f) bs sz i out =
  u8to32_loop f bs sz (i + 4)
    (out ++ [Z.lor (Z.lor (Z.lor (Z.shiftl (Z.lxor c 240) 18) (Z.shiftl (Z.lxor b1 128) 12))
                          (Z.shiftl (Z.lxor b2 128) 6)) (Z.lxor b3 128)]).
Proof.
  intros Hi Hc Hb1 Hb2 Hb3 Hcr Hl. cbn [u8to32_loop]. rewrite (proj2 (Z.ltb_lt _ _) Hi).
  cbv [negb].
  rewrite Hc, Hb1, Hb2, Hb3, (proj2 (Z.ltb_ge c 127)), (proj2 (Z.ltb_ge c 224)),
    (proj2 (Z.ltb_ge c 240)), (proj2 (Z.ltb_lt _ _) Hl) by lia.
  reflexivity.
Qed.

Lemma u8_stop (f : nat) (bs : list Z) (sz i : Z) (out : list Z) :
  sz <= i -> u8to32_loop f bs sz i out = out.
Proof.
  intros H. destruct f; [reflexivity |]. cbn [u8to32_loop].
  rewrite (proj2 (Z.ltb_ge _ _) H). reflexivity.
Qed.
Ltac divlia := Z.div_mod_to_equations; lia.

Lemma utf8_value2 (cp : Z) :
  128 <= cp < 2048 ->
  Z.lor (Z.shiftl (Z.lxor (192 + cp / 64) 192) 6) (Z.lxor (128 + cp mod 64) 128) = cp.
Proof.
  intros H.
  change (Z.lxor (192 + cp / 64) 192) with (Z.lxor (3 * 2^6 + cp / 64) (3 * 2^6)).
  change (Z.lxor (128 + cp mod 64) 128) with (Z.lxor (2 * 2^6 + cp mod 64) (2 * 2^6)).
  rewrite !lxor_add_cancel by divlia.
  rewrite Z.shiftl_mul_pow2, lor_add by divlia. divlia.
Qed.

Lemma utf8_value3 (cp : Z) :
  2048 <= cp < 65536 ->
  Z.lor (Z.lor (Z.shiftl (Z.lxor (224 + cp / 4096) 224) 12)
               (Z.shiftl (Z.lxor (128 + (cp / 64) mod 64) 128) 6))
        (Z.lxor (128 + cp mod 64) 128) = cp.
Proof.
  intros H.
  change (Z.lxor (224 + cp / 4096) 224) with (Z.lxor (7 * 2^5 + cp / 4096) (7 * 2^5)).
  change (Z.lxor (128 + (cp / 64) mod 64) 128) with (Z.lxor (2 * 2^6 + (cp / 64) mod 64) (2 * 2^6)).
  change (Z.lxor (128 + cp mod 64) 128) with (Z.lxor (2 * 2^6 + cp mod 64) (2 * 2^6)).
  rewrite !lxor_add_cancel by divlia.
  rewrite !Z.shiftl_mul_pow2 by lia.
  rewrite lor_add by divlia.
  replace (cp / 4096 * 2^12 + (cp / 64) mod 64 * 2^6)
    with ((cp / 4096 * 2^6 + (cp / 64) mod 64) * 2^6) by ring.
  rewrite lor_add by divlia. divlia.
Qed.

Lemma utf8_value4 (cp : Z) :
  65536 <= cp < 1114112 ->
  Z.lor (Z.lor (Z.lor (Z.shiftl (Z.lxor (240 + cp / 262144) 240) 18)
                      (Z.shiftl (Z.lxor (128 + (cp / 4096) mod 64) 128) 12))
               (Z.shiftl (Z.lxor (128 + (cp / 64) mod 64) 128) 6))
        (Z.lxor (128 + cp mod 64) 128) = cp.
Proof.
  intros H.
  change (Z.lxor (240 + cp / 262144) 240) with (Z.lxor (15 * 2^4 + cp / 262144) (15 * 2^4)).
  change (Z.lxor (128 + (cp / 4096) mod 64) 128)
    with (Z.lxor (2 * 2^6 + (cp / 4096) mod 64) (2 * 2^6)).
  change (Z.lxor (128 + (cp / 64) mod 64) 128) with (Z.lxor (2 * 2^6 + (cp / 64) mod 64) (2 * 2^6)).
  change (Z.lxor (128 + cp mod 64) 128) with (Z.lxor (2 * 2^6 + cp mod 64) (2 * 2^6)).
  rewrite !lxor_add_cancel by divlia.
  rewrite !Z.shiftl_mul_pow2 by lia.
  rewrite lor_add by divlia.
  replace (cp / 262144 * 2^18 + (cp / 4096) mod 64 * 2^12)
    with ((cp / 262144 * 2^6 + (cp / 4096) mod 64) * 2^12) by ring.
  rewrite lor_add by divlia.
  replace ((cp / 262144 * 2^6 + (cp / 4096) mod 64) * 2^12 + (cp / 64) mod 64 * 2^6)
    with (((cp / 262144 * 2^6 + (cp / 4096) mod 64) * 2^6 + (cp / 64) mod 64) * 2^6) by ring.
  rewrite lor_add by divlia. divlia.
Qed.

Lemma byte_at_at (pre e post : list Z) (k : nat) (z : Z) :
  z = Z.of_nat (length pre) + Z.of_nat k -> (k < length e)%nat ->
  byte_at (pre ++ e ++ post) z = nth k e 0.
Proof. intros -> Hk. apply byte_at_app, Hk. Qed.

Ltac ba k :=
  match goal with |- byte_at (?p ++ ?e ++ ?q) _ = _ =>
    rewrite (byte_at_at p e q k) by (simpl; lia); reflexivity end.

Lemma u8_loop_utf8 (cps : list Z) :
  forall (pre out : list Z) (fuel : nat),
  Forall utf8_ok cps ->
  (length (concat (map utf8_encode cps)) <= fuel)%nat ->
  Z.of_nat (length (pre ++ concat (map utf8_encode cps))) < 2^64 ->
  u8to32_loop fuel (pre ++ concat (map utf8_encode cps))
    (Z.of_nat (length (pre ++ concat (map utf8_encode cps)))) (Z.of_nat (length pre)) out =
  out ++ cps.
Proof.
  induction cps as [| cp cps IH]; intros pre out fuel Hok Hlen Hsz.
  - cbn [map concat] in *. rewrite !app_nil_r. apply u8_stop. lia.
  - inversion Hok as [| ? ? [Hcp H7f] Hok']; subst.
    cbn [map concat] in *. set (E := concat (map utf8_encode cps)) in *.
    remember (Z.of_nat (length pre)) as I eqn:HI.
    assert (Hfin : forall f' e v, utf8_encode cp = e -> v = cp -> (length E <= f')%nat ->
      u8to32_loop f' (pre ++ e ++ E) (Z.of_nat (length (pre ++ e ++ E)))
        (I + Z.of_nat (length e)) (out ++ [v]) = out ++ cp :: cps).
    { intros f' e v He -> Hf. rewrite app_assoc.
      replace (I + Z.of_nat (length e)) with (Z.of_nat (length (pre ++ e)))
        by (subst I; rewrite length_app; lia).
      rewrite IH.
      - rewrite <- app_assoc. reflexivity.
      - exact Hok'.
      - exact Hf.
      - rewrite <- app_assoc. subst e. exact Hsz. }
    clearbody E.
    destruct (Z.ltb_spec cp 128) as [L1 | L1]; [| destruct (Z.ltb_spec cp 2048) as [L2 | L2];
      [| destruct (Z.ltb_spec cp 65536) as [L3 | L3]]].
    + assert (He : utf8_encode cp = [cp])
        by (unfold utf8_encode; rewrite (proj2 (Z.ltb_lt _ _) L1); reflexivity).
      rewrite He in *. destruct fuel as [| f]; [simpl in Hlen; lia |].
      rewrite (u8_step1 f _ _ I cp); [apply (Hfin f [cp]); [reflexivity | reflexivity | simpl in Hlen; lia] | | |].
      * rewrite !length_app; simpl; lia.
      * ba 0%nat.
      * lia.
    + assert (He : utf8_encode cp = [192 + cp / 64; 128 + cp mod 64])
        by (unfold utf8_encode; rewrite (proj2 (Z.ltb_ge _ _) L1), (proj2 (Z.ltb_lt _ _) L2);
            reflexivity).
      rewrite He in *. destruct fuel as [| f]; [simpl in Hlen; lia |].
      rewrite (u8_step2 f _ _ I (192 + cp / 64) (128 + cp mod 64));
        [apply (Hfin f [_; _]); [reflexivity | apply utf8_value2; lia | simpl in Hlen; lia] | | | | |].
      * rewrite !length_app; simpl; lia.
      * ba 0%nat.
      * ba 1%nat.
      * divlia.
      * rewrite Z.mod_small; rewrite !length_app in *; simpl length in *; lia.
    + assert (He : utf8_encode cp = [224 + cp / 4096; 128 + (cp / 64) mod 64; 128 + cp mod 64])
        by (unfold utf8_encode; rewrite (proj2 (Z.ltb_ge _ _) L1), (proj2 (Z.ltb_ge _ _) L2),
              (proj2 (Z.ltb_lt _ _) L3); reflexivity).
      rewrite He in *. destruct fuel as [| f]; [simpl in Hlen; lia |].
      rewrite (u8_step3 f _ _ I (224 + cp / 4096) (128 + (cp / 64) mod 64) (128 + cp mod 64));
        [apply (Hfin f [_; _; _]); [reflexivity | apply utf8_value3; lia | simpl in Hlen; lia]
        | | | | | |].
      * rewrite !length_app; simpl; lia.
      * ba 0%nat.
      * ba 1%nat.
      * ba 2%nat.
      * divlia.
      * rewrite Z.mod_small; rewrite !length_app in *; simpl length in *; lia.
    + assert (He : utf8_encode cp = [240 + cp / 262144; 128 + (cp / 4096) mod 64;
                                     128 + (cp / 64) mod 64; 128 + cp mod 64])
        by (unfold utf8_encode; rewrite (proj2 (Z.ltb_ge _ _) L1), (proj2 (Z.ltb_ge _ _) L2),
              (proj2 (Z.ltb_ge _ _) L3); reflexivity).
      rewrite He in *. destruct fuel as [| f]; [simpl in Hlen; lia |].
      rewrite (u8_step4 f _ _ I (240 + cp / 262144) (128 + (cp / 4096) mod 64)
                 (128 + (cp / 64) mod 64) (128 + cp mod 64));
        [apply (Hfin f [_; _; _; _]); [reflexivity | apply utf8_value4; lia | simpl in Hlen; lia]
        | | | | | | |].
      * rewrite !length_app; simpl; lia.
      * ba 0%nat.
      * ba 1%nat.
      * ba 2%nat.
      * ba 3%nat.
      * divlia.
      * rewrite Z.mod_small; rewrite !length_app in *; simpl length in *; lia.
Qed.

(** One iteration of [__u16to32] for a unit below the surrogates, a
    high surrogate with a unit after it, and a unit above the high
    surrogates. *)
Lemma u16_step1 (f : nat) (us : list Z) (sz i c : Z) (out : list Z) :
  i < sz -> byte_at us i = c -> c < 55296 ->
  u16to32_loop (S f) us sz i out = u16to32_loop f us sz (i + 1) (out ++ [c]).
Proof.
  intros Hi Hc Hlt. cbn [u16to32_loop]. rewrite (proj2 (Z.ltb_lt _ _) Hi). cbv [negb].
  rewrite Hc, (proj2 (Z.ltb_lt _ _) Hlt). reflexivity.
Qed.

Lemma u16_step_pair (f : nat) (us : list Z) (sz i c d : Z) (out : list Z) :
  i < sz -> byte_at us i = c -> byte_at us (i + 1) = d -> 55296 <= c <= 56319 ->
  i < sz - 1 ->
  u16to32_loop (S f) us sz i out =
  u16to32_loop f us sz (i + 2) (out ++ [Z.lor (Z.shiftl (Z.lxor c 55296) 10) (Z.lxor d 56320)]).
Proof.
  intros Hi Hc Hd Hcr Hl. cbn [u16to32_loop]. rewrite (proj2 (Z.ltb_lt _ _) Hi). cbv [negb].
  rewrite Hc, Hd, (proj2 (Z.ltb_ge c 55296)), (proj2 (Z.leb_le c 56319)),
    (proj2 (Z.ltb_lt _ _) Hl) by lia.
  reflexivity.
Qed.

Lemma u16_step_skip (f : nat) (us : list Z) (sz i c : Z) (out : list Z) :
  i < sz -> byte_at us i = c -> 56319 < c ->
  u16to32_loop (S f) us sz i out = u16to32_loop f us sz (i + 1) out.
Proof.
  intros Hi Hc Hlt. cbn [u16to32_loop]. rewrite (proj2 (Z.ltb_lt _ _) Hi). cbv [negb].
  rewrite Hc, (proj2 (Z.ltb_ge c 55296)), (proj2 (Z.leb_gt c 56319)) by lia. reflexivity.
Qed.

Lemma u16_stop (f : nat) (us : list Z) (sz i : Z) (out : list Z) :
  sz <= i -> u16to32_loop f us sz i out = out.
Proof.
  intros H. destruct f; [reflexivity |]. cbn [u16to32_loop].
  rewrite (proj2 (Z.ltb_ge _ _) H). reflexivity.
Qed.

(** What the pair formula yields on the surrogates of a supplementary
    code point: the offset from U+10000, not the code point. *)
Lemma utf16_pair_value (cp : Z) :
  65536 <= cp < 1114112 ->
  Z.lor (Z.shiftl (Z.lxor (55296 + (cp - 65536) / 1024) 55296) 10)
        (Z.lxor (56320 + (cp - 65536) mod 1024) 56320) = cp - 65536.
Proof.
  intros H.
  change (Z.lxor (55296 + (cp - 65536) / 1024) 55296)
    with (Z.lxor (54 * 2^10 + (cp - 65536) / 1024) (54 * 2^10)).
  change (Z.lxor (56320 + (cp - 65536) mod 1024) 56320)
    with (Z.lxor (55 * 2^10 + (cp - 65536) mod 1024) (55 * 2^10)).
  rewrite !lxor_add_cancel by divlia.
  rewrite Z.shiftl_mul_pow2, lor_add by divlia. divlia.
Qed.

Lemma u16_loop_utf16 (cps : list Z) :
  forall (pre out : list Z) (fuel : nat),
  Forall utf16_scalar cps ->
  (length (concat (map utf16_encode cps)) <= fuel)%nat ->
  u16to32_loop fuel (pre ++ concat (map utf16_encode cps))
    (Z.of_nat (length (pre ++ concat (map utf16_encode cps)))) (Z.of_nat (length pre)) out =
  out ++ concat (map (fun cp => if cp <? 55296 then [cp]
                                else if cp <? 65536 then [] else [cp - 65536]) cps).
Proof.
  induction cps as [| cp cps IH]; intros pre out fuel Hok Hlen.
  - cbn [map concat] in *. rewrite !app_nil_r. apply u16_stop. lia.
  - inversion Hok as [| ? ? Hcp Hok']; subst.
    cbn [map concat] in *.
    set (E := concat (map utf16_encode cps)) in *.
    set (D := concat (map (fun cp => if cp <? 55296 then [cp]
                                else if cp <? 65536 then [] else [cp - 65536]) cps)) in *.
    remember (Z.of_nat (length pre)) as I eqn:HI.
    assert (Hfin : forall f' e v, utf16_encode cp = e -> (length E <= f')%nat ->
      u16to32_loop f' (pre ++ e ++ E) (Z.of_nat (length (pre ++ e ++ E)))
        (I + Z.of_nat (length e)) (out ++ v) = out ++ v ++ D).
    { intros f' e v He Hf. rewrite app_assoc.
      replace (I + Z.of_nat (length e)) with (Z.of_nat (length (pre ++ e)))
        by (subst I; rewrite length_app; lia).
      rewrite IH; [| exact Hok' | exact Hf]. symmetry; apply app_assoc. }
    clearbody E D.
    unfold utf16_scalar in Hcp.
    destruct (Z.ltb_spec cp 55296) as [L1 | L1]; [| destruct (Z.ltb_spec cp 65536) as [L2 | L2]].
    + assert (He : utf16_encode cp = [cp])
        by (unfold utf16_encode; rewrite (proj2 (Z.ltb_lt cp 65536)) by lia; reflexivity).
      rewrite He in *. destruct fuel as [| f]; [simpl in Hlen; lia |].
      cbv beta iota.
      rewrite (u16_step1 f _ _ I cp); [apply (Hfin f [cp]);
        [reflexivity | simpl in Hlen; lia] | | |].
      * rewrite !length_app; simpl; lia.
      * ba 0%nat.
      * lia.
    + assert (He : utf16_encode cp = [cp])
        by (unfold utf16_encode; rewrite (proj2 (Z.ltb_lt cp 65536)) by lia; reflexivity).
      rewrite He in *. destruct fuel as [| f]; [simpl in Hlen; lia |].
      rewrite (u16_step_skip f _ _ I cp); [| rewrite !length_app; simpl; lia | ba 0%nat | lia].
      cbv beta iota.
      pose proof (Hfin f [cp] [] eq_refl) as HH. rewrite app_nil_r in HH.
      apply HH. simpl in Hlen; lia.
    + assert (He : utf16_encode cp = [55296 + (cp - 65536) / 1024; 56320 + (cp - 65536) mod 1024])
        by (unfold utf16_encode; rewrite (proj2 (Z.ltb_ge cp 65536)) by lia; reflexivity).
      rewrite He in *. destruct fuel as [| f]; [simpl in Hlen; lia |].
      rewrite (u16_step_pair f _ _ I (55296 + (cp - 65536) / 1024) (56320 + (cp - 65536) mod 1024));
        [| rewrite !length_app; simpl; lia | ba 0%nat | ba 1%nat | divlia
         | rewrite !length_app; simpl length; lia].
      cbv beta iota.
      rewrite utf16_pair_value by lia.
      apply (Hfin f [_; _]); [reflexivity | simpl in Hlen; lia].
Qed.

(** Extra: [Text::u8to32] decodes well-formed UTF-8.  If the bytes of
    [s] are the UTF-8 encodings of code points [cps], each nonzero, at
    most U+10FFFF and not DEL (0x7F is not below the one-byte bound
    [0x7F] the code tests against), and [strlen(s)] fits a [size_t],
    the decoder returns exactly [cps]. *)
Theorem u8to32_utf8 (s : string) (cps : list Z) :
  Forall utf8_ok cps ->
  str_bytes s = concat (map utf8_encode cps) ->
  Z.of_nat (length (str_bytes s)) < 2^64 ->
  u8to32 s = cps.
Proof.
  intros Hok Hb Hl. unfold u8to32. change (map _ (list_ascii_of_string s)) with (str_bytes s).
  rewrite Hb in *.
  exact (u8_loop_utf8 cps [] [] _ Hok (le_n _) Hl).
Qed.

Lemma u8to32_utf8_witness :
  Forall utf8_ok [72; 233; 8364; 128512] /\
  u8to32 u8_sample = [72; 233; 8364; 128512].
Proof.
  assert (H : Forall utf8_ok [72; 233; 8364; 128512])
    by (repeat constructor; unfold utf8_ok; lia).
  split; [exact H |].
  apply (u8to32_utf8 u8_sample [72; 233; 8364; 128512] H); vm_compute; reflexivity.
Defined.

(** Extra: what [Text::u16to32] makes of well-formed UTF-16.  On the
    UTF-16 encoding of nonzero scalar values a code point below U+D800
    comes back as itself, one in U+E000..U+FFFF is dropped (it is not
    below 0xD800 and not a high surrogate, and the loop pushes nothing
    for it), and a supplementary code point, written as a surrogate pair,
    comes back as its offset from U+10000 (the code never adds 0x10000
    back). *)
Theorem u16to32_utf16 (cps : list Z) :
  Forall utf16_scalar cps ->
  u16to32 (concat (map utf16_encode cps)) =
  concat (map (fun cp => if cp <? 55296 then [cp]
                         else if cp <? 65536 then [] else [cp - 65536]) cps).
Proof.
  intros Hok. unfold u16to32.
  exact (u16_loop_utf16 cps [] [] _ Hok (le_n _)).
Qed.

Lemma u16to32_utf16_witness :
  Forall utf16_scalar [72; 57344; 128512] /\
  u16to32 [72; 57344; 55357; 56832] = [72; 62976].
Proof.
  assert (H : Forall utf16_scalar [72; 57344; 128512])
    by (repeat constructor; unfold utf16_scalar; lia).
  split; [exact H |].
  exact (u16to32_utf16 [72; 57344; 128512] H).
Defined.

End Unicode.

(* ------------------------------------------------------------------ *)
(** ** The Document: its node invariant and its operations *)

Module Document.

Lemma wf_set_prop (p : Property) (u : Text) : wf u -> wf (set_prop p u).
Proof. intros H. exact H. Qed.

Lemma wf_update_sorted (u : Text) : wf u -> wf (update_sorted u).
Proof. intros H. exact H. Qed.

Lemma wf_update_group (l : loc) (f : Group -> Group) (u : Text) :
  wf u -> wf (text_update_group l f u).
Proof.
  intros [Hlt Hinj]. unfold text_update_group, set_map. split; cbn [t_map t_heap t_next].
  - intros n l' Hl. destruct (Hlt n l' Hl) as [H1 H2]. split; [exact H1 |].
    destruct (decide (l' = l)) as [-> |]; [rewrite lookup_insert_eq; eauto |].
    rewrite lookup_insert_ne by congruence. exact H2.
  - exact Hinj.
Qed.

Lemma wf_with_group (name : option string) (f : Group -> Group) (u : Text) :
  wf u -> wf (text_with_group name f u).
Proof.
  intros H. unfold text_with_group. destruct (text_get name u); [apply wf_update_group |]; exact H.
Qed.

Lemma wf_erase (n : string) (u : Text) (m : gmap string loc) (h : gmap loc Group) :
  erase_key n (t_map u) (t_heap u) = (m, h) -> wf u -> wf (set_map m h u).
Proof.
  unfold erase_key. intros E [Hlt Hinj].
  destruct (t_map u !! n) as [l |] eqn:En; injection E as <- <-; [| split; assumption].
  unfold set_map. split; cbn [t_map t_heap t_next].
  - intros n' l' H. apply lookup_delete_Some in H as [Hne H].
    destruct (Hlt _ _ H) as [A B]. split; [exact A |].
    rewrite lookup_delete_ne; [exact B |].
    intros ->. apply Hne. exact (Hinj n n' l' En H).
  - intros n1 n2 l' H1 H2. apply lookup_delete_Some in H1 as [_ H1].
    apply lookup_delete_Some in H2 as [_ H2]. exact (Hinj _ _ _ H1 H2).
Qed.

Lemma wf_clear_loop (ks : list string) :
  forall (u : Text) m h, clear_loop ks (t_map u) (t_heap u) = (m, h) -> wf u -> wf (set_map m h u).
Proof.
  induction ks as [| k ks IH]; intros u m h E Hw; cbn [clear_loop] in E.
  - injection E as <- <-. exact Hw.
  - destruct (size (t_map u) <=? 1)%nat; [injection E as <- <-; exact Hw |].
    destruct (String.eqb k ""); [exact (IH u m h E Hw) |].
    destruct (erase_key k (t_map u) (t_heap u)) as [m' h'] eqn:E'.
    exact (IH (set_map m' h' u) m h E (wf_erase k u m' h' E' Hw)).
Qed.

Lemma wf_text_clear (u : Text) : wf u -> wf (text_clear u).
Proof.
  intros Hw. unfold text_clear. cbv zeta.
  destruct (clear_loop (map fst (entries (t_map (set_prop ∅ u)))) (t_map (set_prop ∅ u))
              (t_heap (set_prop ∅ u))) as [m h] eqn:E.
  pose proof (wf_clear_loop _ (set_prop ∅ u) m h E (wf_set_prop _ _ Hw)) as Hw1.
  apply wf_update_sorted.
  destruct (text_begin _) as [k |]; [destruct (t_map _ !! k) |]; try apply wf_update_group; exact Hw1.
Qed.

Lemma wf_insert (name : option string) (prop : Property) (u : Text) :
  wf u -> wf (snd (text_insert name prop u)).
Proof.
  intros Hw. unfold text_insert. destruct name as [n |]; [| exact Hw].
  destruct ((String.length n <? 1)%nat || (64 <? String.length n)%nat); [exact Hw |].
  destruct (t_map u !! n) eqn:En; [exact Hw |]. cbn [snd]. apply wf_update_sorted.
  pose proof (proj1 (RoundTrip.merge_group_spec u n
                       (mkGroup prop ∅ (derive_priority prop 100)) Hw)) as H.
  unfold merge_group in H. rewrite En in H. exact H.
Qed.

Lemma wf_rename (o n : option string) (b : bool) (u u' : Text) :
  text_rename o n u = Some (b, u') -> wf u -> wf u'.
Proof.
  intros E Hw. destruct o as [o |], n as [n |]; try discriminate E. unfold text_rename in E.
  destruct (t_map u !! o) as [l |] eqn:Eo; [| injection E as _ <-; exact Hw].
  destruct (delete o (t_map u) !! n) eqn:En; [discriminate E |]. injection E as _ <-.
  - destruct Hw as [Hlt Hinj]. unfold set_map. split; cbn [t_map t_heap t_next].
    + intros n' l' H. apply lookup_insert_Some in H as [[_ <-] | [_ H]].
      * exact (Hlt o l Eo).
      * apply lookup_delete_Some in H as [_ H]. exact (Hlt n' l' H).
    + assert (Hout : forall n2 l', delete o (t_map u) !! n2 = Some l' -> l' <> l).
      { intros n2 l' H ->. apply lookup_delete_Some in H as [Hne H].
        apply Hne. exact (Hinj o n2 l Eo H). }
      intros n1 n2 l' H1 H2.
      apply lookup_insert_Some in H1 as [[<- <-] | [Hne1 H1]];
        apply lookup_insert_Some in H2 as [[<- E2] | [Hne2 H2]].
      * reflexivity.
      * destruct (Hout _ _ H2 eq_refl).
      * destruct (Hout _ _ H1 (eq_sym E2)).
      * apply lookup_delete_Some in H1 as [_ H1]. apply lookup_delete_Some in H2 as [_ H2].
        exact (Hinj _ _ _ H1 H2).
Qed.

Lemma wf_remove (name : option string) (u : Text) : wf u -> wf (text_remove name u).
Proof.
  intros Hw. destruct name as [n |]; [| exact Hw]. unfold text_remove.
  destruct (0 <? String.length n)%nat.
  - destruct (erase_key n (t_map u) (t_heap u)) as [m h] eqn:E.
    apply wf_update_sorted, (wf_erase n u m h E Hw).
  - apply wf_update_sorted. destruct (t_map u !! n); [apply wf_update_group |]; exact Hw.
Qed.

Lemma wf_remove_it (n : string) (u : Text) : wf u -> wf (text_remove_it n u).
Proof.
  intros Hw. unfold text_remove_it.
  destruct (erase_key n (t_map u) (t_heap u)) as [m h] eqn:E.
  apply wf_update_sorted, (wf_erase n u m h E Hw).
Qed.

Lemma wf_load_groups (f : nat) :
  forall err name src u s, wf u -> wf (gout_text (load_groups f err name src u s)).
Proof.
  induction f as [| f IH]; intros err name src u s Hw; cbn [load_groups]; [exact Hw |].
  repeat match goal with
         | |- context [match ?x with (_, _) => _ end] => destruct x
         | |- context [if ?b then _ else _] => destruct b
         end; try exact Hw; apply IH, RoundTrip.merge_group_spec, Hw.
Qed.

Lemma wf_load_body (dec : list ascii -> list ascii) (u : Text) (s : stream) :
  wf u -> wf (snd (load dec u s)).
Proof.
  intros Hw. unfold load. cbv zeta.
  repeat match goal with
         | |- context [load_groups ?f ?e ?n ?sr ?t ?st] =>
             pose proof (wf_load_groups f e n sr t st Hw) as Hg;
             destruct (load_groups f e n sr t st) as [t' | [] t']; cbn [gout_text] in Hg
         | |- context [match ?x with (_, _) => _ end] => destruct x
         | |- context [if ?b then _ else _] => destruct b
         end; cbn [snd]; first [exact Hw | exact Hg | apply wf_text_clear, Hg].
Qed.

Lemma wf_load (dec : list ascii -> list ascii) (buf : list ascii) (u : Text) :
  wf u -> wf (snd (text_load dec buf u)).
Proof.
  intros Hw. pose proof (wf_load_body dec u (mkStream buf 0) Hw) as H.
  unfold text_load. destruct (load dec u (mkStream buf 0)) as [r t']. apply wf_update_sorted, H.
Qed.

Lemma reachable_wf (t : Text) : reachable t -> wf t.
Proof.
  induction 1.
  - exact (RoundTrip.wf_new ∅).
  - apply wf_insert; assumption.
  - apply wf_remove; assumption.
  - apply wf_remove_it; assumption.
  - eapply wf_rename; eassumption.
  - apply wf_text_clear; assumption.
  - apply wf_load; assumption.
  - apply wf_set_prop; assumption.
  - apply wf_set_prop; assumption.
  - apply wf_with_group; assumption.
  - apply wf_with_group; assumption.
  - apply wf_with_group; assumption.
  - apply wf_with_group; assumption.
  - apply wf_with_group; assumption.
Qed.

(** The sort of [update_sorted]. *)
Section Sort.

Variable lt : loc -> loc -> bool.

Lemma ins_loc_perm (x : loc) (l : list loc) : Permutation (ins_loc lt x l) (x :: l).
Proof.
  induction l as [| y l IH]; cbn [ins_loc]; [reflexivity |].
  destruct (lt x y); [reflexivity |]. rewrite IH. apply perm_swap.
Qed.

Lemma sort_perm (l : list loc) : Permutation (foldr (ins_loc lt) [] l) l.
Proof.
  induction l as [| x l IH]; cbn [foldr]; [reflexivity |]. rewrite ins_loc_perm, IH. reflexivity.
Qed.

Hypothesis lt_asym : forall a b, lt a b = true -> lt b a = false.

Lemma ins_loc_sorted (x : loc) (l : list loc) :
  Sorted (fun a b => lt b a = false) l -> Sorted (fun a b => lt b a = false) (ins_loc lt x l).
Proof.
  induction l as [| y l IH]; intros H; cbn [ins_loc].
  - constructor; constructor.
  - destruct (lt x y) eqn:E.
    + constructor; [exact H | constructor; apply lt_asym, E].
    + inversion H as [| ? ? Hs Hhd]; subst. constructor; [apply IH, Hs |].
      destruct l as [| z l]; cbn [ins_loc].
      * constructor. exact E.
      * destruct (lt x z); constructor; [exact E |]. inversion Hhd. assumption.
Qed.

Lemma sort_sorted (l : list loc) : Sorted (fun a b => lt b a = false) (foldr (ins_loc lt) [] l).
Proof. induction l as [| x l IH]; cbn [foldr]; [constructor | apply ins_loc_sorted, IH]. Qed.

Hypothesis lt_total : forall a b, a <> b -> lt b a = false -> lt a b = true.

Lemma sorted_strict (l : list loc) :
  Sorted (fun a b => lt b a = false) l -> NoDup l -> Sorted (fun a b => lt a b = true) l.
Proof.
  induction 1 as [| a l Hs IH Hhd]; intros Hnd; constructor.
  - apply IH. inversion Hnd; assumption.
  - destruct Hhd as [| b l' Hab]; constructor. apply lt_total; [| exact Hab].
    intros ->. inversion Hnd as [| ? ? Hn _]. apply Hn. now left.
Qed.

End Sort.

Lemma sorted_before_asym (t : Text) (a b : loc) :
  sorted_before t a b = true -> sorted_before t b a = false.
Proof.
  unfold sorted_before. intros H.
  apply orb_true_iff in H. apply orb_false_iff.
  rewrite andb_true_iff, Z.ltb_lt, Z.eqb_eq, Pos.ltb_lt in H.
  rewrite andb_false_iff, Z.ltb_ge, Z.eqb_neq, Pos.ltb_ge. lia.
Qed.

Lemma sorted_before_total (t : Text) (a b : loc) :
  a <> b -> sorted_before t b a = false -> sorted_before t a b = true.
Proof.
  unfold sorted_before. intros Hne H.
  apply orb_false_iff in H. apply orb_true_iff.
  rewrite andb_false_iff, Z.ltb_ge, Z.eqb_neq, Pos.ltb_ge in H.
  rewrite andb_true_iff, Z.ltb_lt, Z.eqb_eq, Pos.ltb_lt.
  assert (a <> b) by exact Hne. lia.
Qed.

Lemma sorted_before_trans (t : Text) : Transitive (fun a b => sorted_before t a b = true).
Proof.
  intros a b c. unfold sorted_before. rewrite !orb_true_iff, !andb_true_iff, !Z.ltb_lt, !Z.eqb_eq,
    !Pos.ltb_lt. lia.
Qed.

Lemma NoDup_snd (L : list (string * loc)) :
  NoDup L -> (forall k1 k2 x, In (k1, x) L -> In (k2, x) L -> k1 = k2) -> NoDup (map snd L).
Proof.
  induction L as [| [k x] L IH]; intros Hnd Hinj; cbn [map snd]; constructor.
  - intros Hin. apply list_elem_of_In, in_map_iff in Hin as [[k2 x'] [Hx Hin]]. cbn [snd] in Hx. subst x'.
    rewrite (Hinj k k2 x (or_introl eq_refl) (or_intror Hin)) in Hnd.
    inversion Hnd as [| ? ? Hn _]. apply Hn, list_elem_of_In, Hin.
  - apply IH; [inversion Hnd; assumption |].
    intros k1 k2 x' H1 H2. exact (Hinj k1 k2 x' (or_intror H1) (or_intror H2)).
Qed.

Lemma In_map_to_list {A} (m : gmap string A) (k : string) (x : A) :
  In (k, x) (map_to_list m) <-> m !! k = Some x.
Proof. rewrite <- list_elem_of_In. apply elem_of_map_to_list. Qed.

(** The nodes [update_sorted] collects. *)
Lemma update_sorted_perm (t : Text) :
  Permutation (t_sorted (update_sorted t)) (map snd (map_to_list (t_map t))).
Proof.
  unfold update_sorted, set_sorted. cbn [t_sorted].
  rewrite sort_perm. apply Permutation_map, RoundTrip.entries_perm.
Qed.

Lemma NoDup_nodes (t : Text) : wf t -> NoDup (map snd (map_to_list (t_map t))).
Proof.
  intros [_ Hinj]. apply NoDup_snd; [apply NoDup_map_to_list |].
  intros k1 k2 x H1 H2. apply In_map_to_list in H1, H2. exact (Hinj _ _ _ H1 H2).
Qed.

Lemma update_sorted_sorted (t : Text) :
  wf t -> StronglySorted (fun a b => sorted_before t a b = true) (t_sorted (update_sorted t)).
Proof.
  intros Hw. apply Sorted_StronglySorted; [apply sorted_before_trans |].
  apply sorted_strict; [apply sorted_before_total | |].
  - unfold update_sorted, set_sorted. cbn [t_sorted].
    apply sort_sorted, sorted_before_asym.
  - rewrite (update_sorted_perm t). apply NoDup_nodes, Hw.
Qed.

Lemma In_nodes (t : Text) (n : string) (l : loc) :
  t_map t !! n = Some l -> In l (map snd (map_to_list (t_map t))).
Proof.
  intros H. apply in_map_iff. exists (n, l). split; [reflexivity | apply In_map_to_list, H].
Qed.

(** The loop of [Text::clear] leaves exactly the default group's entry. *)
Lemma clear_loop_default (l : loc) (ks : list string) :
  forall m h, m !! "" = Some l -> (forall k, is_Some (m !! k) -> k = "" \/ In k ks) ->
  fst (clear_loop ks m h) = {[ "" := l ]}.
Proof.
  induction ks as [| k ks IH]; intros m h H0 Hk; cbn [clear_loop].
  - cbn [fst]. apply map_eq. intros k.
    destruct (String.eq_dec k "") as [-> | Hne].
    + rewrite lookup_singleton_eq. exact H0.
    + rewrite lookup_singleton_ne by congruence.
      destruct (m !! k) eqn:E; [| reflexivity].
      destruct (Hk k (mk_is_Some _ _ E)) as [-> | []]. contradiction.
  - destruct (size m <=? 1)%nat eqn:Hs.
    + cbn [fst]. apply Nat.leb_le in Hs.
      assert (Hd : size (delete "" m) = 0%nat).
      { pose proof (map_size_insert_None "" l (delete "" m) (lookup_delete_eq m "")) as Hsz.
        rewrite (insert_delete_id m "" l H0) in Hsz. lia. }
      apply map_size_empty_inv in Hd.
      rewrite <- (insert_delete_id m "" l H0), Hd. apply insert_empty.
    + destruct (String.eqb_spec k "") as [-> | Hne].
      * apply IH; [exact H0 |]. intros k' Hk'.
        destruct (Hk k' Hk') as [-> | [<- | Hin]]; auto.
      * unfold erase_key. destruct (m !! k) as [lk |] eqn:Ek.
        -- apply IH; [rewrite lookup_delete_ne by congruence; exact H0 |].
           intros k' Hk'. apply lookup_delete_is_Some in Hk' as [Hne' Hk'].
           destruct (Hk k' Hk') as [-> | [<- | Hin]]; auto. contradiction.
        -- apply IH; [exact H0 |]. intros k' Hk'.
           destruct (Hk k' Hk') as [-> | [<- | Hin]]; auto.
           rewrite Ek in Hk'. destruct Hk' as [? Hk']. discriminate.
Qed.

Lemma entries_singleton {A} (k : string) (x : A) : entries {[ k := x ]} = [(k, x)].
Proof. unfold entries. rewrite map_to_list_singleton. reflexivity. Qed.

Ltac sperm :=
  match goal with |- Permutation (t_sorted (update_sorted ?X)) _ => exact (update_sorted_perm X) end.

(** Extra: [Text::update_sorted] rebuilds [_sorted] from the whole map.
    For every Document the public interface builds, it lists the node of
    each group exactly once, strictly in the comparator's order: higher
    priority first, and between equal priorities the lower node address
    first. *)
Theorem update_sorted_order (t : Text) :
  reachable t ->
  Permutation (t_sorted (update_sorted t)) (map snd (map_to_list (t_map t))) /\
  StronglySorted (fun a b => sorted_before t a b = true) (t_sorted (update_sorted t)).
Proof.
  intros R. split; [apply update_sorted_perm | apply update_sorted_sorted, reachable_wf, R].
Qed.

Lemma update_sorted_order_witness :
  let t := snd (text_insert (Some "g") {[ "priority" := VInt 5 ]} text_new) in
  reachable t /\
  Permutation (t_sorted (update_sorted t)) (map snd (map_to_list (t_map t))) /\
  StronglySorted (fun a b => sorted_before t a b = true) (t_sorted (update_sorted t)).
Proof.
  intros t. assert (R : reachable t) by exact (R_insert _ _ _ R_new).
  split; [exact R | exact (update_sorted_order t R)].
Defined.

(** Extra: [Text::insert] with a name of 1..64 bytes that is not taken
    creates one group: it returns its node, [get] finds it, it holds
    the given properties, no translation and the derived priority, it
    takes part in the sorted list right away, and no other group and not
    the Document's properties change.  With any other name, or one
    already taken, it returns nullptr and changes nothing. *)
Theorem text_insert_spec (name : string) (prop : Property) (t : Text) :
  reachable t ->
  let '(r, t') := text_insert (Some name) prop t in
  ((1 <= String.length name <= 64)%nat -> t_map t !! name = None ->
     exists l, r = Some l /\ text_get (Some name) t' = Some l /\
       text_group t' name = Some (mkGroup prop ∅ (derive_priority prop 100)) /\
       (forall n, n <> name -> text_group t' n = text_group t n) /\
       t_prop t' = t_prop t /\ In l (t_sorted t')) /\
  ((String.length name = 0%nat \/ (64 < String.length name)%nat \/ is_Some (t_map t !! name)) ->
     r = None /\ t' = t).
Proof.
  intros R. destruct (reachable_wf t R) as [Hlt Hinj].
  destruct (text_insert (Some name) prop t) as [r t'] eqn:E. unfold text_insert in E.
  split.
  - intros Hlen Hn.
    assert (C : ((String.length name <? 1)%nat || (64 <? String.length name)%nat) = false)
      by (apply orb_false_iff; split; apply Nat.ltb_ge; lia).
    rewrite C, Hn in E. injection E as <- <-.
    exists (t_next t). split; [reflexivity |].
    unfold text_get, text_group, update_sorted, set_sorted. cbn [t_map t_heap t_prop t_sorted].
    split; [apply lookup_insert_eq |].
    split; [rewrite lookup_insert_eq; apply lookup_insert_eq |].
    split; [| split; [reflexivity |]].
    + intros n Hne. rewrite lookup_insert_ne by congruence.
      destruct (t_map t !! n) as [l |] eqn:El; [| reflexivity].
      destruct (Hlt n l El) as [Hl _]. apply lookup_insert_ne. intros Heq. subst l. lia.
    + set (X := mkText (t_prop t) (<[name := t_next t]> (t_map t))
           (<[t_next t := mkGroup prop ∅ (derive_priority prop 100)]> (t_heap t))
           (t_sorted t) (Pos.succ (t_next t))).
      exact (Permutation_in _ (Permutation_sym (update_sorted_perm X))
               (In_nodes X name _ (lookup_insert_eq _ _ _))).
  - intros H.
    destruct ((String.length name <? 1)%nat || (64 <? String.length name)%nat) eqn:C.
    + injection E as <- <-. split; reflexivity.
    + apply orb_false_iff in C as [C1 C2]. apply Nat.ltb_ge in C1, C2.
      destruct H as [H | [H | [l Hl]]]; [lia | lia |].
      rewrite Hl in E. injection E as <- <-. split; reflexivity.
Qed.

Lemma text_insert_spec_witness :
  reachable text_new /\ fst (text_insert (Some "g") ∅ text_new) <> None /\
  text_insert (Some "") ∅ text_new = (None, text_new).
Proof.
  pose proof (text_insert_spec "g" ∅ text_new R_new) as H1.
  pose proof (text_insert_spec "" ∅ text_new R_new) as H2.
  destruct (text_insert (Some "g") ∅ text_new) as [r1 t1].
  destruct (text_insert (Some "") ∅ text_new) as [r2 t2].
  destruct H1 as [H1 _]. destruct H2 as [_ H2].
  destruct (H1 ltac:(simpl; lia) eq_refl) as (l & -> & _).
  destruct (H2 (or_introl eq_refl)) as [-> ->].
  split; [exact R_new | split; [discriminate | reflexivity]].
Defined.

(** Extra: [Text::rename] on a bound old name whose new name is taken
    by another group is undefined behaviour.  Otherwise it fails exactly
    when the old name is unbound, and then changes nothing; on success the
    group moves: the new name gives what the old one gave, the old name (if
    different) is gone, every other name, the properties and the sorted
    list are unchanged (the node, and so its address, is kept). *)
Theorem text_rename_spec (o n : string) (t : Text) :
  match text_rename (Some o) (Some n) t with
  | None => is_Some (t_map t !! o) /\ n <> o /\ is_Some (t_map t !! n)
  | Some (false, t') => t_map t !! o = None /\ t' = t
  | Some (true, t') =>
      is_Some (t_map t !! o) /\ (n = o \/ t_map t !! n = None) /\
      text_group t' n = text_group t o /\
      (n <> o -> text_group t' o = None) /\
      (forall k, k <> o -> k <> n -> text_group t' k = text_group t k) /\
      t_prop t' = t_prop t /\ t_sorted t' = t_sorted t
  end.
Proof.
  unfold text_rename. destruct (t_map t !! o) as [l |] eqn:Eo; [| split; reflexivity].
  destruct (delete o (t_map t) !! n) as [l' |] eqn:En.
  - apply lookup_delete_Some in En as [Hne En]. split; [eauto | split; [congruence | eauto]].
  - split; [eauto |].
    split; [apply lookup_delete_None in En as [-> | En]; auto |].
    unfold text_group, set_map. cbn [t_map t_heap t_prop t_sorted].
    split; [rewrite lookup_insert_eq, Eo; reflexivity |].
    split; [intros Hne; rewrite lookup_insert_ne, lookup_delete_eq by congruence; reflexivity |].
    split; [| split; reflexivity].
    intros k Hko Hkn. rewrite lookup_insert_ne, lookup_delete_ne by congruence. reflexivity.
Qed.

Lemma text_rename_spec_witness :
  t_map text_new !! "x" = None /\
  (exists t', text_rename (Some "g") (Some "h") demo_text = Some (true, t') /\
              text_group t' "h" = text_group demo_text "g") /\
  is_Some (t_map demo_text !! "") /\ "" <> "g" /\ is_Some (t_map demo_text !! "g").
Proof.
  pose proof (text_rename_spec "x" "y" text_new) as H1.
  pose proof (text_rename_spec "g" "h" demo_text) as H2.
  pose proof (text_rename_spec "g" "" demo_text) as H3.
  destruct (text_rename (Some "x") (Some "y") text_new) as [[[|] t1] |] eqn:E1;
    vm_compute in E1; try discriminate E1.
  destruct (text_rename (Some "g") (Some "h") demo_text) as [[[|] t2] |] eqn:E2;
    vm_compute in E2; try discriminate E2.
  destruct (text_rename (Some "g") (Some "") demo_text) as [[[|] t3] |] eqn:E3;
    vm_compute in E3; try discriminate E3.
  destruct H1 as [H1 _]. destruct H2 as (_ & _ & H2 & _). destruct H3 as (H3a & H3b & H3c).
  split; [exact H1 | split; [exists t2; split; [reflexivity | exact H2] |]].
  split; [| split; [congruence | exact H3a]].
  vm_compute; eauto.
Defined.

(** Extra: [Text::remove(name)].  A non-empty name loses its group;
    the empty name keeps the default group (if present), cleared.  Every
    other group and the Document's properties are unchanged, and the
    sorted list is rebuilt from the groups that are left. *)
Theorem text_remove_spec (n : string) (t : Text) :
  reachable t ->
  let t' := text_remove (Some n) t in
  text_group t' n = (if String.eqb n "" then
                       match text_group t n with Some _ => Some group_empty | None => None end
                     else None) /\
  (forall k, k <> n -> text_group t' k = text_group t k) /\
  t_prop t' = t_prop t /\
  Permutation (t_sorted t') (map snd (map_to_list (t_map t'))).
Proof.
  intros R. destruct (reachable_wf t R) as [Hlt Hinj]. cbv zeta. unfold text_remove.
  destruct n as [| c n'].
  - cbn [String.length Nat.ltb Nat.leb String.eqb].
    destruct (t_map t !! "") as [l |] eqn:El.
    + split; [| split; [| split; [reflexivity | sperm]]].
      * unfold text_group, update_sorted, text_update_group, set_sorted, set_map.
        cbn [t_map t_heap]. rewrite El, lookup_insert_eq.
        destruct (Hlt _ _ El) as [_ [g Hg]]. rewrite Hg. reflexivity.
      * intros k Hk. unfold text_group, update_sorted, text_update_group, set_sorted, set_map.
        cbn [t_map t_heap]. destruct (t_map t !! k) as [lk |] eqn:Ek; [| reflexivity].
        rewrite lookup_insert_ne; [reflexivity |]. intros ->. apply Hk. exact (Hinj _ _ _ Ek El).
    + split; [| split; [| split; [reflexivity | sperm]]].
      * unfold text_group. cbn [update_sorted set_sorted t_map]. rewrite El. reflexivity.
      * intros k _. reflexivity.
  - cbn [String.length Nat.ltb Nat.leb String.eqb].
    destruct (erase_key (String c n') (t_map t) (t_heap t)) as [m h] eqn:E.
    cbv beta iota.
    unfold erase_key in E. destruct (t_map t !! String c n') as [l |] eqn:El; injection E as <- <-.
    + split; [| split; [| split; [reflexivity | sperm]]].
      * unfold text_group. cbn [update_sorted set_sorted set_map t_map t_heap].
        rewrite lookup_delete_eq. reflexivity.
      * intros k Hk. unfold text_group. cbn [update_sorted set_sorted set_map t_map t_heap].
        rewrite lookup_delete_ne by congruence.
        destruct (t_map t !! k) as [lk |] eqn:Ek; [| reflexivity].
        rewrite lookup_delete_ne; [reflexivity |]. intros ->. apply Hk. exact (Hinj _ _ _ Ek El).
    + split; [| split; [| split; [reflexivity | sperm]]].
      * unfold text_group. cbn [update_sorted set_sorted set_map t_map]. rewrite El. reflexivity.
      * intros k _. reflexivity.
Qed.

Lemma text_remove_spec_witness :
  let t := snd (text_insert (Some "g") ∅ text_new) in
  reachable t /\ text_group (text_remove (Some "g") t) "g" = None.
Proof.
  intros t. assert (R : reachable t) by exact (R_insert _ _ _ R_new).
  split; [exact R |]. exact (proj1 (text_remove_spec "g" t R)).
Defined.

(** Extra: [Text::clear] on a Document that has its default group
    leaves only that group, on its own node, cleared, with no Document
    property; the sorted list is that single node and [empty()] holds. *)
Theorem text_clear_spec (t : Text) (l : loc) :
  t_map t !! "" = Some l ->
  let t' := text_clear t in
  t_prop t' = ∅ /\ t_map t' = {[ "" := l ]} /\ t_heap t' !! l = Some group_empty /\
  t_sorted t' = [l] /\ text_empty t' = true.
Proof.
  intros H0. cbv zeta. unfold text_clear. cbv zeta.
  destruct (clear_loop (map fst (entries (t_map (set_prop ∅ t)))) (t_map (set_prop ∅ t))
              (t_heap (set_prop ∅ t))) as [m h] eqn:E.
  assert (Hm : m = {[ "" := l ]}).
  { pose proof (clear_loop_default l (map fst (entries (t_map t))) (t_map t) (t_heap t) H0) as Hc.
    cbn [set_prop t_map t_heap] in E. rewrite E in Hc. apply Hc.
    intros k [x Hx]. right. apply in_map_iff. exists (k, x). split; [reflexivity |].
    apply list_elem_of_In, RoundTrip.elem_of_entries, Hx. }
  subst m.
  unfold text_begin, set_map. cbn [t_map t_heap t_prop t_sorted t_next].
  rewrite entries_singleton. cbn [fst]. rewrite lookup_singleton_eq.
  unfold text_update_group, update_sorted, set_sorted, set_map, text_empty, deref.
  cbn [t_map t_heap t_prop t_sorted t_next].
  rewrite entries_singleton, map_size_singleton, lookup_insert_eq.
  split; [reflexivity | split; [reflexivity | split; [reflexivity | split; [reflexivity |]]]].
  cbn. apply bool_decide_eq_true. reflexivity.
Qed.

Lemma text_clear_spec_witness :
  t_map demo_text !! "" = Some 1%positive /\ t_sorted (text_clear demo_text) = [1%positive].
Proof.
  assert (H : t_map demo_text !! "" = Some 1%positive) by (vm_compute; reflexivity).
  split; [exact H | exact (proj1 (proj2 (proj2 (proj2 (text_clear_spec demo_text 1%positive H)))))].
Defined.

Section LoadInto.

Variable lz4_compress : list ascii -> list ascii.
Variable lz4_decompress : list ascii -> list ascii.
Hypothesis lz4_roundtrip : forall bs, lz4_decompress (lz4_compress bs) = bs.

(** [load] of a saved Document into any Document [u]: the properties
    are replaced; the groups of the file are merged in by [merge_group]. *)
Lemma load_saved_into (t u : Text) (c : bool) :
  text_okb t = true -> (c = true -> text_empty t = false) -> wf u ->
  exists u', text_load lz4_decompress (text_save lz4_compress t c) u = (true, u') /\
    t_prop u' = t_prop t /\
    forall n, text_group u' n =
      if text_empty t then text_group u n else
      match t_map t !! n with
      | None => text_group u n
      | Some l => Some (match text_group u n with
                        | None => reloaded (deref t l)
                        | Some g0 => merge_into (reloaded (deref t l)) g0
                        end)
      end.
Proof.
  intros Hok Hc0 Hwu.
  destruct (RoundTrip.text_okb_parts t Hok) as [Hp Hmsz].
  assert (Hpsz : Z.of_nat (size (t_prop t)) < 2^31)
    by (unfold prop_okb in Hp; apply andb_true_iff in Hp as [_ Hp]; apply Z.ltb_lt in Hp; exact Hp).
  set (file := text_save lz4_compress t c).
  set (flag := if c then "001"%char else "000"%char).
  set (payload := if text_empty t then save_body t
                  else if c then lz4_compress (save_body t) else save_body t).
  assert (H0 : rest (mkStream file 0) = tag_CKT ++ [flag] ++ payload) by reflexivity.
  destruct (RoundTrip.st_read_ok (mkStream file 0) 3 tag_CKT _ H0 eq_refl) as (s1 & E1 & H1).
  destruct (RoundTrip.st_read_ok s1 1 [flag] payload H1 eq_refl) as (s2 & E2 & H2).
  remember (if c then mkStream (lz4_decompress (skipn (s_pos s2) (s_buf s2))) 0 else s2)
    as s3 eqn:Es3.
  assert (H3 : rest s3 = save_body t ++ []).
  { rewrite app_nil_r. subst s3. unfold rest in H2. unfold payload in H2.
    destruct c; [rewrite (Hc0 eq_refl) in H2 | destruct (text_empty t); exact H2].
    unfold rest. cbn [s_pos s_buf skipn]. rewrite H2. apply lz4_roundtrip. }
  assert (Hc : negb (Ascii.eqb flag "000"%char) = c) by (unfold flag; destruct c; reflexivity).
  assert (Hb1 : - 2^31 <= Z.of_nat (size (t_prop t)) < 2^31) by lia.
  unfold text_load, load. rewrite E1. cbv beta iota. unfold rd_bool. rewrite E2.
  cbv beta iota. rewrite Hc.
  rewrite (bool_decide_eq_true_2 (tag_CKT = tag_CKT)) by reflexivity.
  cbv beta iota zeta delta [negb]. rewrite <- Es3.
  destruct (text_empty t) eqn:He.
  - rewrite RoundTrip.save_body_empty in H3 by exact He. rewrite <- !app_assoc in H3.
    destruct (RoundTrip.rd_int4_ok s3 _ _ Hb1 H3) as (s4 & E4 & H4).
    destruct (RoundTrip.rd_int4_ok s4 0 _ ltac:(lia) H4) as (s5 & E5 & H5).
    destruct (RoundTrip.read_attr_ok (t_prop t) s5 [] Hp H5) as (s6 & E6 & _).
    rewrite E4. cbv beta iota. rewrite E5. cbv beta iota. rewrite E6.
    cbv beta iota zeta delta [negb].
    eexists. split; [reflexivity |]. split; [reflexivity |]. intros n. reflexivity.
  - rewrite RoundTrip.save_body_nonempty in H3 by exact He. rewrite <- !app_assoc in H3.
    assert (Hb2 : - 2^31 <= Z.of_nat (size (t_map t)) < 2^31) by lia.
    destruct (RoundTrip.rd_int4_ok s3 _ _ Hb1 H3) as (s4 & E4 & H4).
    destruct (RoundTrip.rd_int4_ok s4 _ _ Hb2 H4) as (s5 & E5 & H5).
    destruct (RoundTrip.read_attr_ok (t_prop t) s5 _ Hp H5) as (s6 & E6 & H6).
    rewrite E4. cbv beta iota. rewrite E5. cbv beta iota. rewrite E6.
    cbv beta iota zeta delta [negb].
    rewrite Nat2Z.id, <- (RoundTrip.length_entries (t_map t)).
    rewrite (RoundTrip.load_groups_ok t (entries (t_map t)) false "" "" (set_prop (t_prop t) u) s6 []).
    + eexists. split; [reflexivity |].
      destruct (RoundTrip.merge_fold_spec (fun l => reloaded (deref t l)) (entries (t_map t))
                  (set_prop (t_prop t) u) (wf_set_prop _ _ Hwu) (RoundTrip.NoDup_entries _))
        as (_ & Hprop & Hgrp).
      split; [exact Hprop |].
      intros n. rewrite RoundTrip.text_group_update_sorted, Hgrp, RoundTrip.list_to_map_entries.
      reflexivity.
    + apply RoundTrip.Forall_entries. intros n l Hn.
      destruct (RoundTrip.text_okb_groups t n l Hok Hn) as (Hlen & _ & Hg). split; assumption.
    + exact H6.
Qed.

(** Extra: [Text::load] (and [open]) of a saved valid Document (saved
    uncompressed, or compressed when it is not [empty()]) into a
    Document that already has content and its default group: the load
    succeeds; the Document's properties are replaced by the file's; a
    group of the file whose name is new arrives as saved (priority
    derived from its properties); a group whose name exists keeps its
    own properties and priority and receives the file's translations,
    which override its own for the same source; groups the file does
    not name are untouched. *)
Theorem load_merges_into (t u : Text) (c : bool) :
  text_okb t = true -> (c = true -> text_empty t = false) -> reachable u -> is_Some (t_map u !! "") ->
  exists u', text_load lz4_decompress (text_save lz4_compress t c) u = (true, u') /\
    t_prop u' = t_prop t /\
    forall n, text_group u' n =
      match t_map t !! n, text_group u n with
      | None, r => r
      | Some l, None => Some (reloaded (deref t l))
      | Some l, Some g0 =>
          Some (mkGroup (g_prop g0) (g_map (deref t l) ∪ g_map g0) (g_priority g0))
      end.
Proof.
  intros Hok Hc0 R [l0 Hl0]. pose proof (reachable_wf u R) as Hwu.
  destruct (load_saved_into t u c Hok Hc0 Hwu) as (u' & E & Hp & Hg).
  exists u'. split; [exact E | split; [exact Hp |]]. intros n. rewrite Hg.
  assert (Hm : forall l g0, t_map t !! n = Some l ->
             merge_into (reloaded (deref t l)) g0 =
             mkGroup (g_prop g0) (g_map (deref t l) ∪ g_map g0) (g_priority g0)).
  { intros l g0 Hn. destruct (RoundTrip.text_okb_groups t n l Hok Hn) as (_ & _ & Hgo).
    unfold merge_into. rewrite RoundTrip.merge_into_foldl.
    - cbn [reloaded g_map]. rewrite RoundTrip.foldl_insert_union by apply RoundTrip.NoDup_entries.
      rewrite RoundTrip.list_to_map_entries. reflexivity.
    - apply RoundTrip.Forall_entries. intros k v Hk.
      exact (RoundTrip.forallb_map_to_list _ _ k v (RoundTrip.group_okb_items _ Hgo) Hk). }
  destruct (text_empty t) eqn:He.
  - destruct (t_map t !! n) as [l |] eqn:En; [| reflexivity].
    destruct (RoundTrip.text_empty_groups t n l He (RoundTrip.text_okb_default t Hok) En)
      as [-> Hmt].
    destruct (proj1 Hwu "" l0 Hl0) as [_ [g0 Hg0]].
    unfold text_group at 1 2. rewrite Hl0, Hg0, Hmt, (left_id_L ∅ (∪)).
    destruct g0; reflexivity.
  - destruct (t_map t !! n) as [l |] eqn:En; [| reflexivity].
    destruct (text_group u n) as [g0 |]; [| reflexivity].
    rewrite (Hm l g0 eq_refl). reflexivity.
Qed.

End LoadInto.

Lemma load_merges_into_witness :
  text_okb demo_text = true /\ (true = true -> text_empty demo_text = false) /\
  reachable text_new /\ is_Some (t_map text_new !! "") /\
  exists u', text_load id (text_save id demo_text true) text_new = (true, u') /\
             t_prop u' = t_prop demo_text.
Proof.
  assert (H1 : text_okb demo_text = true) by (vm_compute; reflexivity).
  assert (H2 : true = true -> text_empty demo_text = false) by (intros _; vm_compute; reflexivity).
  assert (H3 : is_Some (t_map text_new !! "")) by (vm_compute; eauto).
  split; [exact H1 | split; [exact H2 | split; [exact R_new | split; [exact H3 |]]]].
  destruct (load_merges_into id id (fun bs => eq_refl) demo_text text_new true H1 H2 R_new H3)
    as (u' & E & Hp & _).
  exists u'. split; assumption.
Defined.

(** Extra: [Text::u32] answers what [Text::u8] answers, decoded by
    [u8to32]: with a non-null [def] the two agree exactly; with a null
    [def], [Text::u32] hands [nullptr] to [u8to32] (undefined behaviour)
    exactly when the first group holding [src] maps it to the empty
    translation. *)
Theorem text_u32_agrees_u8 (t : Text) (src d : string) :
  text_u32 t (Some src) (Some d) =
    match text_u8 t (Some src) (Some d) with Some s => U32Str (u8to32 s) | None => U32Null end /\
  text_u32 t (Some src) None =
    match text_u8 t (Some src) (Some "") with
    | Some s => if String.eqb s "" then U32Undefined else U32Str (u8to32 s)
    | None => U32Null
    end.
Proof.
  unfold text_u32, text_u8. induction (t_sorted t) as [| l ls IH]; cbn [u32_loop u8_loop];
    [split; reflexivity |].
  destruct (group_u8 (deref t l) src (Some "")) as [trs |]; [| exact IH].
  destruct (String.eqb_spec trs "") as [-> | Hne]; [split; reflexivity |].
  split; [reflexivity |]. destruct (String.eqb_spec trs ""); [contradiction | reflexivity].
Qed.

End Document.

(* ------------------------------------------------------------------ *)
(** ** Removal from a Group and from a Property table *)

Module Tables.

(** Extra: after [Group::remove(src)] the group no longer has [src]
    ([u8] answers nullptr, whatever [def]); after [Property::remove(name)]
    [get(name)] answers the default [var], which holds [bool false].
    Every other source and name answers as before. *)
Theorem remove_then_lookup (g : Group) (p : Property) (src name : string) (def : option string) :
  group_u8 (group_remove src g) src def = None /\
  (forall src', src' <> src -> group_u8 (group_remove src g) src' def = group_u8 g src' def) /\
  prop_get (Some name) (prop_remove name p) = var_default /\
  (forall name', name' <> name ->
     prop_get (Some name') (prop_remove name p) = prop_get (Some name') p).
Proof.
  unfold group_u8, group_remove, prop_get, prop_remove. cbn [g_map].
  split; [rewrite lookup_delete_eq; reflexivity |].
  split; [intros src' Hne; rewrite lookup_delete_ne by congruence; reflexivity |].
  split; [rewrite lookup_delete_eq; reflexivity |].
  intros name' Hne. rewrite lookup_delete_ne by congruence. reflexivity.
Qed.

Lemma remove_then_lookup_witness :
  group_u8 (group_remove "a" (mkGroup ∅ {[ "b" := "x" ]} 100)) "b" None = Some "x" /\
  prop_get (Some "q") (prop_remove "p" {[ "q" := VInt 1 ]}) = VInt 1.
Proof.
  destruct (remove_then_lookup (mkGroup ∅ {[ "b" := "x" ]} 100) {[ "q" := VInt 1 ]} "a" "p" None)
    as (_ & Hg & _ & Hp).
  split; [rewrite (Hg "b"); [reflexivity | discriminate] |].
  rewrite (Hp "q"); [reflexivity | discriminate].
Defined.

End Tables.

(* ------------------------------------------------------------------ *)
(** ** The stream format: records and the error paths of [load] *)

Module Files.

(** Extra: the Property codec round-trips.  A table the setters can
    build (names of 1..64 bytes without NUL, 32-bit numbers, strings of
    1..255 bytes, fewer than 2^31 entries) written by [write] is read
    back by the [read_attr] of [load], called with the table's size,
    exactly, and the bytes after it are left unread. *)
Theorem property_codec_roundtrip (p : Property) (r : list ascii) :
  prop_okb p = true ->
  exists s', read_attr (Z.of_nat (size p)) (mkStream (write_props p ++ r) 0) = (true, p, s') /\
             rest s' = r.
Proof. intros H. apply RoundTrip.read_attr_ok; [exact H | reflexivity]. Qed.

Lemma property_codec_roundtrip_witness :
  let p : Property := <[ "s" := VString "x" ]> {[ "n" := VInt 7 ]} in
  prop_okb p = true /\
  exists s', read_attr 2 (mkStream (write_props p) 0) = (true, p, s').
Proof.
  intros p. assert (H : prop_okb p = true) by (vm_compute; reflexivity).
  split; [exact H |].
  destruct (property_codec_roundtrip p [] H) as (s' & E & _).
  exists s'. rewrite app_nil_r in E. exact E.
Defined.

(** Extra: the free [read_str] of the translation items.  A length
    field of 1..10485760 followed by that many bytes gives back exactly
    those bytes, whatever the output string held before (longer or
    shorter), and consumes them; a length field out of range returns 0,
    leaves the output string as it was and consumes the 4 bytes of the
    field, which are not rewound. *)
Theorem read_str_spec (out : string) (s : stream) (r : list ascii) :
  (forall x, 1 <= slen x <= L10KB -> rest s = bytes_of 4 (slen x) ++ list_ascii_of_string x ++ r ->
     exists s', item_read_str out s = (slen x, x, s') /\ rest s' = r) /\
  (forall z, - 2^31 <= z < 1 \/ L10KB < z < 2^31 -> rest s = bytes_of 4 z ++ r ->
     exists s', item_read_str out s = (0, out, s') /\ rest s' = r).
Proof.
  split.
  - intros x Hx H. apply RoundTrip.item_read_str_ok; assumption.
  - intros z Hz H.
    destruct (RoundTrip.rd_int4_ok s z r ltac:(unfold L10KB in Hz; lia) H) as (s' & E & H').
    exists s'. unfold item_read_str. rewrite E. cbv beta iota.
    replace ((z <? 1) || (L10KB <? z)) with true; [split; [reflexivity | exact H'] |].
    symmetry. apply orb_true_iff.
    destruct Hz as [Hz | Hz]; [left | right]; apply Z.ltb_lt; lia.
Qed.

Lemma read_str_spec_witness :
  item_read_str "longer" (mkStream (bytes_of 4 2 ++ ["h"; "i"]%char) 0) =
    (2, "hi", mkStream (bytes_of 4 2 ++ ["h"; "i"]%char) 6) /\
  fst (item_read_str "keep" (mkStream (bytes_of 4 0) 0)) = (0, "keep").
Proof.
  split.
  - destruct (proj1 (read_str_spec "longer" (mkStream (bytes_of 4 2 ++ ["h"; "i"]%char) 0) [])
                "hi" ltac:(unfold slen, L10KB; simpl; lia) eq_refl) as (s' & E & _).
    rewrite E. vm_compute in E. injection E as <-. reflexivity.
  - destruct (proj2 (read_str_spec "keep" (mkStream (bytes_of 4 0) 0) []) 0
                ltac:(left; lia) eq_refl) as (s' & E & _).
    rewrite E. reflexivity.
Defined.

(** Extra: a buffer that does not start with the tag "CKT" is refused
    and the Document is left as it was (only [_sorted] is rebuilt). *)
Theorem load_bad_tag (dec : list ascii -> list ascii) (buf : list ascii) (t : Text) :
  firstn 3 buf <> tag_CKT -> text_load dec buf t = (false, update_sorted t).
Proof.
  intros H. unfold text_load, load.
  change (st_read 3 (mkStream buf 0)) with (firstn 3 buf, mkStream buf (length (firstn 3 buf))).
  cbv beta iota. destruct (rd_bool true _) as [cm s1].
  rewrite bool_decide_false by exact H. reflexivity.
Qed.

Lemma load_bad_tag_witness :
  firstn 3 ["X"; "Y"; "Z"]%char <> tag_CKT /\
  text_load id ["X"; "Y"; "Z"]%char text_new = (false, update_sorted text_new).
Proof.
  assert (H : firstn 3 ["X"; "Y"; "Z"]%char <> tag_CKT) by (vm_compute; discriminate).
  split; [exact H | exact (load_bad_tag id _ text_new H)].
Defined.

Lemma update_sorted_idem (t : Text) : update_sorted (update_sorted t) = update_sorted t.
Proof. destruct t. reflexivity. Qed.

Lemma update_sorted_clear (t : Text) : update_sorted (text_clear t) = text_clear t.
Proof.
  unfold text_clear. destruct (clear_loop _ _ _) as [m h]. cbv beta iota zeta.
  destruct (text_begin _) as [k |]; [destruct (_ !! k) |]; apply update_sorted_idem.
Qed.

(** Extra: a group-name length above 64 in the first group record makes
    [load] report failure and [clear()] the Document: what it held
    before the load is dropped with it (with [Text::clear] this leaves the
    default group only, empty). *)
Theorem load_bad_group_name (dec : list ascii -> list ascii) (k z : Z) (r : list ascii) (t : Text) :
  1 <= k < 2^31 -> 64 < z < 256 ->
  text_load dec (tag_CKT ++ [byte_of 0] ++ bytes_of 4 0 ++ bytes_of 4 k ++ [byte_of z] ++ r) t =
    (false, text_clear (set_prop ∅ t)).
Proof.
  intros Hk Hz.
  set (buf := tag_CKT ++ [byte_of 0] ++ bytes_of 4 0 ++ bytes_of 4 k ++ [byte_of z] ++ r).
  assert (H0 : rest (mkStream buf 0) =
                 tag_CKT ++ [byte_of 0] ++ bytes_of 4 0 ++ bytes_of 4 k ++ [byte_of z] ++ r)
    by reflexivity.
  destruct (RoundTrip.st_read_ok _ 3 tag_CKT _ H0 eq_refl) as (s1 & E1 & H1).
  destruct (RoundTrip.st_read_ok s1 1 [byte_of 0] _ H1 eq_refl) as (s2 & E2 & H2).
  destruct (RoundTrip.rd_int4_ok s2 0 _ ltac:(lia) H2) as (s3 & E3 & H3).
  destruct (RoundTrip.rd_int4_ok s3 k _ ltac:(lia) H3) as (s4 & E4 & H4).
  destruct (RoundTrip.rd_int1_ok s4 z r ltac:(lia) H4) as (s5 & E5 & _).
  unfold text_load, load. rewrite E1. cbv beta iota. unfold rd_bool. rewrite E2. cbv beta iota.
  replace (negb (Ascii.eqb (byte_of 0) "000"%char)) with false by reflexivity.
  rewrite (bool_decide_eq_true_2 (tag_CKT = tag_CKT)) by reflexivity.
  cbv beta iota zeta delta [negb]. rewrite E3. cbv beta iota. rewrite E4. cbv beta iota.
  change (read_attr 0 s4) with (true, (∅ : Property), s4). cbv beta iota zeta delta [negb].
  replace (Z.to_nat k) with (S (Z.to_nat (k - 1))) by lia. cbn [load_groups].
  rewrite E5. cbv beta iota.
  replace ((z <? 0) || (64 <? z)) with true
    by (symmetry; apply orb_true_iff; right; apply Z.ltb_lt; lia).
  cbv beta iota. rewrite update_sorted_clear. reflexivity.
Qed.

Lemma load_bad_group_name_witness :
  1 <= 1 < 2^31 /\ 64 < 65 < 256 /\
  text_load id (tag_CKT ++ [byte_of 0] ++ bytes_of 4 0 ++ bytes_of 4 1 ++ [byte_of 65]) demo_text =
    (false, text_clear (set_prop ∅ demo_text)).
Proof.
  split; [lia | split; [lia |]].
  rewrite <- (app_nil_r [byte_of 65]).
  apply (load_bad_group_name id 1 65 [] demo_text); lia.
Defined.

End Files.
